(** * react-http: the request router of [src/router.ts]

    A shallow embedding of the router (query-string parsing, path matching,
    route resolution over the rendered tree, body decoding and the request
    dispatcher with its middleware chain) together with the properties the
    specification states about it.

    JavaScript strings are modelled as [string] (sequences of bytes, UTF-8),
    objects used as dictionaries ([Record<string, string>]) as [gmap string
    string] holding their own properties; assignment goes through
    [JS.setProperty], which leaves the object alone at the key [__proto__]
    as JavaScript does.  The response follows Node's [ServerResponse]:
    [setHeader] throws once the head has been sent and on a name or value
    Node refuses, and [write] and [end] throw when they have to send the
    head with a status code out of range.  [new URL] is the platform's
    parser, a parameter of the dispatcher. *)

From Stdlib Require Import String Ascii List Bool Arith Lia.
From stdpp Require Import base option list gmap strings pretty.
Import ListNotations.

Local Open Scope string_scope.
Local Open Scope list_scope.

Set Warnings "-register-all".
Set Default Proof Using "Type".

(** ** JavaScript built-ins used by the router *)

Module JS.

(** [s.split(sep)] for a one-character separator: never the empty list. *)
Fixpoint split (sep : ascii) (s : string) : list string :=
  match s with
  | EmptyString => [EmptyString]
  | String c rest =>
      if Ascii.eqb c sep then EmptyString :: split sep rest
      else match split sep rest with
           | [] => [String c EmptyString]
           | piece :: pieces => String c piece :: pieces
           end
  end.

(** [Boolean(s)] on a string: the empty string is the only falsy one. *)
Definition truthy (s : string) : bool := negb (String.eqb s "").

(** [xs.filter(Boolean)]. *)
Definition filterBoolean (xs : list string) : list string :=
  List.filter truthy xs.

(** [xs.join(sep)]. *)
Fixpoint join (sep : string) (xs : list string) : string :=
  match xs with
  | [] => ""
  | [x] => x
  | x :: rest => x ++ sep ++ join sep rest
  end.

(** [s.startsWith(p)]. *)
Fixpoint startsWith (p s : string) : bool :=
  match p, s with
  | EmptyString, _ => true
  | String _ _, EmptyString => false
  | String a p', String b s' => Ascii.eqb a b && startsWith p' s'
  end.
Global Arguments startsWith : simpl never.

(** [s.slice(1)]. *)
Definition slice1 (s : string) : string :=
  match s with
  | EmptyString => EmptyString
  | String _ rest => rest
  end.

(** The two alternatives of the regular expression [/^\/+|\/+$/g]:
    the leading run of slashes and the trailing run of slashes. *)
Fixpoint dropLeadingSlashes (s : string) : string :=
  match s with
  | EmptyString => EmptyString
  | String c rest => if Ascii.eqb c "/" then dropLeadingSlashes rest else s
  end.

Fixpoint dropTrailingSlashes (s : string) : string :=
  match s with
  | EmptyString => EmptyString
  | String c rest =>
      let rest' := dropTrailingSlashes rest in
      if Ascii.eqb c "/" && String.eqb rest' "" then EmptyString
      else String c rest'
  end.

(** A run of [n] slashes: what either alternative matches. *)
Fixpoint slashes (n : nat) : string :=
  match n with
  | 0 => ""
  | S n' => String "/" (slashes n')
  end.

(** [p.replace(/^\/+|\/+$/g, "")]. *)
Definition trimSlashes (p : string) : string :=
  dropTrailingSlashes (dropLeadingSlashes p).

(** [obj[key] = value] for a string [value] on an object made by the
    literal [{}]: an own property is created or overwritten, except at the
    key [__proto__], where the assignment reaches the accessor inherited
    from [Object.prototype], which ignores a value that is not an object:
    nothing is bound. *)
Definition setProperty (key value : string) (obj : gmap string string)
  : gmap string string :=
  if String.eqb key "__proto__" then obj else <[key := value]> obj.

(** [s.toUpperCase()] on the ASCII letters; other bytes are kept. *)
Definition upperChar (c : ascii) : ascii :=
  let n := nat_of_ascii c in
  if ((97 <=? n) && (n <=? 122))%nat then ascii_of_nat (n - 32) else c.

Fixpoint toUpperCase (s : string) : string :=
  match s with
  | EmptyString => EmptyString
  | String c rest => String (upperChar c) (toUpperCase rest)
  end.

(** [s.toLowerCase()] on the ASCII letters; other bytes are kept. *)
Definition lowerChar (c : ascii) : ascii :=
  let n := nat_of_ascii c in
  if ((65 <=? n) && (n <=? 90))%nat then ascii_of_nat (n + 32) else c.

Fixpoint toLowerCase (s : string) : string :=
  match s with
  | EmptyString => EmptyString
  | String c rest => String (lowerChar c) (toLowerCase rest)
  end.

(** Node's [checkIsHttpToken], the regular expression
    [/^[\^_`a-zA-Z\-0-9!#$%&'*+.|~]+$/]. *)
Definition tokenChar (c : ascii) : bool :=
  let n := nat_of_ascii c in
  (((94 <=? n) && (n <=? 122)) || ((65 <=? n) && (n <=? 90))
   || ((48 <=? n) && (n <=? 57)) || (n =? 45) || (n =? 33)
   || ((35 <=? n) && (n <=? 39)) || (n =? 42) || (n =? 43) || (n =? 46)
   || (n =? 124) || (n =? 126))%nat.

Fixpoint allTokenChars (s : string) : bool :=
  match s with
  | EmptyString => true
  | String c rest => tokenChar c && allTokenChars rest
  end.

Definition isHttpToken (s : string) : bool := truthy s && allTokenChars s.

(** Node's [checkInvalidHeaderChar], the regular expression
    [/[^\t\x20-\x7e\x80-\xff]/] on the code units of the value.  On the
    UTF-8 bytes of the string: a tab or a printable ASCII byte is allowed,
    and so is a two-byte sequence led by [0xC2] or [0xC3], which encodes a
    code unit from [0x80] to [0xff]; any other byte stands for a control
    character or for a code unit above [0xff]. *)
Fixpoint headerCharsValid (s : string) : bool :=
  match s with
  | EmptyString => true
  | String c rest =>
      let n := nat_of_ascii c in
      if ((n =? 9) || ((32 <=? n) && (n <=? 126)))%nat then headerCharsValid rest
      else if ((n =? 194) || (n =? 195))%nat then
        match rest with
        | String d rest' =>
            let m := nat_of_ascii d in
            ((128 <=? m) && (m <=? 191))%nat && headerCharsValid rest'
        | EmptyString => false
        end
      else false
  end.

(** *** [decodeURIComponent]

    Percent-decoding as ECMAScript's [Decode] does it: [%XX] gives the
    byte [XX]; a byte with its high bit set must start a well-formed UTF-8
    sequence whose remaining bytes are all escapes too; anything else
    throws [URIError], here [None].  The scan keeps the number of
    continuation bytes still owed and the range allowed for the next one. *)

Definition hexDigit (c : ascii) : option nat :=
  let n := nat_of_ascii c in
  if ((48 <=? n) && (n <=? 57))%nat then Some (n - 48)
  else if ((65 <=? n) && (n <=? 70))%nat then Some (n - 55)
  else if ((97 <=? n) && (n <=? 102))%nat then Some (n - 87)
  else None.

Inductive Phase : Type :=
| Plain                       (* after a complete character *)
| Percent                     (* after "%" *)
| PercentHi (hi : nat).       (* after "%" and one hex digit *)

Record Scan : Type := mkScan {
  phase : Phase;
  owed : nat;                 (* continuation bytes still required *)
  lo : nat;                   (* allowed range of the next continuation *)
  hi : nat
}.

Definition scan0 : Scan := mkScan Plain 0 0 0.

(** A decoded byte [b] arrives in scan state [sc]: the new state. *)
Definition acceptByte (sc : Scan) (b : nat) : option Scan :=
  match owed sc with
  | 0 =>
      if (b <? 128)%nat then Some scan0
      else if ((194 <=? b) && (b <=? 223))%nat then Some (mkScan Plain 1 128 191)
      else if (b =? 224)%nat then Some (mkScan Plain 2 160 191)
      else if (b =? 237)%nat then Some (mkScan Plain 2 128 159)
      else if ((225 <=? b) && (b <=? 239))%nat then Some (mkScan Plain 2 128 191)
      else if (b =? 240)%nat then Some (mkScan Plain 3 144 191)
      else if (b =? 244)%nat then Some (mkScan Plain 3 128 143)
      else if ((241 <=? b) && (b <=? 243))%nat then Some (mkScan Plain 3 128 191)
      else None
  | S n =>
      if ((lo sc <=? b) && (b <=? hi sc))%nat then Some (mkScan Plain n 128 191)
      else None
  end.

Fixpoint decodeFrom (sc : Scan) (s : string) : option string :=
  match s with
  | EmptyString =>
      match phase sc, owed sc with
      | Plain, 0 => Some EmptyString
      | _, _ => None
      end
  | String c rest =>
      match phase sc with
      | Plain =>
          if Ascii.eqb c "%" then
            decodeFrom (mkScan Percent (owed sc) (lo sc) (hi sc)) rest
          else
            match owed sc with
            | 0 => String c <$> decodeFrom scan0 rest
            | S _ => None
            end
      | Percent =>
          h ← hexDigit c;
          decodeFrom (mkScan (PercentHi h) (owed sc) (lo sc) (hi sc)) rest
      | PercentHi h =>
          l ← hexDigit c;
          sc' ← acceptByte sc (16 * h + l);
          String (ascii_of_nat (16 * h + l)) <$> decodeFrom sc' rest
      end
  end.

Definition decodeURIComponent (s : string) : option string :=
  decodeFrom scan0 s.

End JS.

(** ** Values, thrown errors and the platform's request and response *)

(** The values handlers return and bodies decode to; [JUndefined] is the
    "no value" sentinel.  Numbers are kept as integers. *)
Inductive JsValue : Type :=
| JUndefined
| JNull
| JBool (b : bool)
| JNumber (n : Z)
| JString (s : string)
| JArray (items : list JsValue)
| JObject (fields : list (string * JsValue)).

(** What a [throw] or a rejected promise carries: an instance of [Error]
    with its [message], or any other value. *)
Inductive Thrown : Type :=
| ErrorObject (message : string)
| NonError (v : JsValue).

(** How a fault surfaces: a synchronous [throw], or the rejection of the
    promise the function returned.  [await] treats both alike. *)
Inductive Fault : Type := SyncThrow | AsyncReject.

Inductive HttpMethod : Type := GET | POST | PUT | DELETE | PATCH | OPTIONS | HEAD.

Definition methodName (m : HttpMethod) : string :=
  match m with
  | GET => "GET" | POST => "POST" | PUT => "PUT" | DELETE => "DELETE"
  | PATCH => "PATCH" | OPTIONS => "OPTIONS" | HEAD => "HEAD"
  end.

(** The events of the request's body stream, in the order they fire. *)
Inductive StreamEvent : Type :=
| DataEvent (chunk : string)
| EndEvent
| ErrorEvent.

(** What [new URL(input, base)] yields when it does not throw: the two
    parts the dispatcher reads ([search] is empty or starts with the
    question mark). *)
Record URL : Type := mkURL {
  pathname : string;
  search : string
}.

(** The request as Node hands it over: [url] is the request target as
    received, [headers] has lower-case names. *)
Record IncomingMessage : Type := mkRequest {
  req_method : option string;
  req_url : option string;
  req_headers : gmap string string;
  req_body : list StreamEvent
}.

(** The response handle, after Node's [ServerResponse].  [statusCode] is a
    plain property, checked only when the head is sent.  [headers] holds
    the headers set, under their names in lower case.  [headersSent]
    becomes true when the head is sent, with the first [write] or with
    [end]; sending the head throws [ERR_HTTP_INVALID_STATUS_CODE] when the
    status code is not between 100 and 999, and once it is sent [setHeader]
    throws [ERR_HTTP_HEADERS_SENT].  [writableEnded] tells whether [end]
    was called; after that [write] and [end] add nothing to the body (the
    error event Node emits for a late [write] or [end] with data is not
    part of the model).  [chunks] is what was handed to [write] and [end],
    in order. *)
Record ServerResponse : Type := mkResponse {
  statusCode : nat;
  headers : gmap string string;
  chunks : list string;
  headersSent : bool;
  writableEnded : bool
}.

Definition newResponse : ServerResponse := mkResponse 200 ∅ [] false false.

(** What a method of the response does: it returns, or it throws. *)
Inductive Attempt (A : Type) : Type :=
| Fine (a : A)
| Threw (e : Thrown).

Arguments Fine {A} a.
Arguments Threw {A} e.

Definition headersSentError : Thrown :=
  ErrorObject "Cannot set headers after they are sent to the client".

Definition invalidTokenError (name : string) : Thrown :=
  ErrorObject
    ("Header name must be a valid HTTP token [" +:+ String (ascii_of_nat 34) name
     +:+ String (ascii_of_nat 34) "]").

Definition invalidCharError (name : string) : Thrown :=
  ErrorObject
    ("Invalid character in header content [" +:+ String (ascii_of_nat 34) name
     +:+ String (ascii_of_nat 34) "]").

Definition invalidStatusError (code : nat) : Thrown :=
  ErrorObject ("Invalid status code: " +:+ pretty code).

Definition validStatus (code : nat) : bool :=
  ((100 <=? code) && (code <=? 999))%nat.

Definition res_setStatus (code : nat) (r : ServerResponse) : ServerResponse :=
  mkResponse code (headers r) (chunks r) (headersSent r) (writableEnded r).

Definition res_setHeader (name value : string) (r : ServerResponse)
  : Attempt ServerResponse :=
  if headersSent r then Threw headersSentError
  else if negb (JS.isHttpToken name) then Threw (invalidTokenError name)
  else if negb (JS.headerCharsValid value) then Threw (invalidCharError name)
  else Fine (mkResponse (statusCode r)
               (<[JS.toLowerCase name := value]> (headers r)) (chunks r)
               (headersSent r) (writableEnded r)).

(** Sending the head, if it has not been sent: what [write] and [end] do
    first. *)
Definition sendHead (r : ServerResponse) : Attempt ServerResponse :=
  if headersSent r then Fine r
  else if validStatus (statusCode r) then
    Fine (mkResponse (statusCode r) (headers r) (chunks r) true (writableEnded r))
  else Threw (invalidStatusError (statusCode r)).

Definition res_write (d : string) (r : ServerResponse) : Attempt ServerResponse :=
  if writableEnded r then Fine r
  else
    match sendHead r with
    | Fine r1 =>
        Fine (mkResponse (statusCode r1) (headers r1) (chunks r1 ++ [d]) true
                (writableEnded r1))
    | Threw e => Threw e
    end.

(** [end(data?)]: a truthy [data] is written, then the response is ended. *)
Definition res_end (d : option string) (r : ServerResponse)
  : Attempt ServerResponse :=
  if writableEnded r then Fine r
  else
    match sendHead r with
    | Fine r1 =>
        Fine (mkResponse (statusCode r1) (headers r1)
                (match d with
                 | Some s => if JS.truthy s then chunks r1 ++ [s] else chunks r1
                 | None => chunks r1
                 end) true true)
    | Threw e => Threw e
    end.

Record RequestContext : Type := mkContext {
  ctx_req : IncomingMessage;
  ctx_params : gmap string string;
  ctx_query : gmap string string;
  ctx_path : string;
  ctx_method : string;
  ctx_body : JsValue
}.

(** ** User code: middleware and handlers

    Middleware and handlers are inputs of the router.  Their behaviour is a
    tree of the actions they can take on the response, ending in a result,
    in a fault, or never.  [K] is the type of the continuation a program
    holds: [unit] for a middleware (its [next]), [Empty_set] for a handler
    (none).  [AwaitNext] is [try { await next(); k } catch (e) { onError e }]
    with the [try] around the call alone; [return next()] is the same with
    nothing after it.  [CallNext] is a call of [next] whose promise is
    neither awaited nor returned: the rest of the chain then runs
    interleaved with the caller, in an order fixed by the scheduling of
    promise jobs, which the model does not follow (see [Detached]). *)
Inductive Prog (K R : Type) : Type :=
| Return (r : R)
| Throw (how : Fault) (e : Thrown)
| Stall                                   (* awaits what never settles *)
| SetStatusCode (code : nat) (k : Prog K R)
| SetHeader (name value : string) (k : Prog K R)
| Write (d : string) (k : Prog K R)
| End (d : option string) (k : Prog K R)
| Inspect (k : ServerResponse -> Prog K R)
| Emit (label : string) (k : Prog K R)
| AwaitNext (next : K) (k : Prog K R) (onError : Thrown -> Prog K R)
| CallNext (next : K) (k : Prog K R).

Arguments Return {K R} r.
Arguments Throw {K R} how e.
Arguments Stall {K R}.
Arguments SetStatusCode {K R} code k.
Arguments SetHeader {K R} name value k.
Arguments Write {K R} d k.
Arguments End {K R} d k.
Arguments Inspect {K R} k.
Arguments Emit {K R} label k.
Arguments AwaitNext {K R} next k onError.
Arguments CallNext {K R} next k.

Definition RequestHandler : Type := RequestContext -> Prog Empty_set JsValue.
Definition MiddlewareHandler : Type := RequestContext -> Prog unit unit.

(** [await next(); k] with no [try] around it. *)
Definition awaitNext {R} (k : Prog unit R) : Prog unit R :=
  AwaitNext tt k (fun e => Throw AsyncReject e).

(** ** The route tree ([types.ts]) *)

Record MethodNode : Type := mkMethod {
  mn_method : HttpMethod;
  mn_handler : RequestHandler;
  mn_path : option string
}.

Inductive ServerNode : Type :=
| ServerN (port : nat) (children : list ServerNode)
          (middlewares : list MiddlewareHandler)
| RouteN (path : string) (children : list ServerNode)
         (middlewares : list MiddlewareHandler)
| MethodN (m : MethodNode)
| MiddlewareN (handler : MiddlewareHandler).

(** [node.children || []] and [node.middlewares || []]. *)
Definition node_children (n : ServerNode) : list ServerNode :=
  match n with
  | ServerN _ cs _ | RouteN _ cs _ => cs
  | _ => []
  end.

Definition node_middlewares (n : ServerNode) : list MiddlewareHandler :=
  match n with
  | ServerN _ _ ms | RouteN _ _ ms => ms
  | _ => []
  end.

Record MatchedRoute : Type := mkMatched {
  mr_node : MethodNode;
  mr_params : gmap string string;
  mr_middlewares : list MiddlewareHandler
}.

(** ** [router.ts] *)

(** The loop body of [parseQueryString] over the remaining pairs.
    [None] is the [URIError] of [decodeURIComponent]. *)
Fixpoint parsePairs (pairs : list string) (query : gmap string string)
  : option (gmap string string) :=
  match pairs with
  | [] => Some query
  | pair_ :: rest =>
      let pieces := JS.split "=" pair_ in
      let key := List.nth 0 pieces "" in
      let value := List.nth_error pieces 1 in
      if JS.truthy key then
        k ← JS.decodeURIComponent key;
        v ← match value with
            | Some s => if JS.truthy s then JS.decodeURIComponent s else Some ""
            | None => Some ""
            end;
        parsePairs rest (JS.setProperty k v query)
      else parsePairs rest query
  end.

Definition parseQueryString (queryString : string) : option (gmap string string) :=
  if negb (JS.truthy queryString) then Some ∅
  else parsePairs (JS.split "&" queryString) ∅.

Record PathMatch : Type := mkPathMatch {
  match_ : bool;
  params : gmap string string
}.

(** The loop of [matchPath] from position [i] on; both lists have the same
    length when it starts. *)
Fixpoint matchParts (patternParts pathParts : list string)
    (params : gmap string string) : PathMatch :=
  match patternParts, pathParts with
  | patternPart :: patternRest, pathPart :: pathRest =>
      if JS.startsWith ":" patternPart then
        matchParts patternRest pathRest
          (JS.setProperty (JS.slice1 patternPart) pathPart params)
      else if negb (String.eqb patternPart pathPart) then
        mkPathMatch false params
      else matchParts patternRest pathRest params
  | _, _ => mkPathMatch true params
  end.

(** [s.split("/").filter(Boolean)]. *)
Definition segments (s : string) : list string :=
  JS.filterBoolean (JS.split "/" s).

Definition matchPath (pattern path : string) : PathMatch :=
  let patternParts := segments pattern in
  let pathParts := segments path in
  if negb (length patternParts =? length pathParts)%nat then mkPathMatch false ∅
  else matchParts patternParts pathParts ∅.

Definition joinPaths (paths : list string) : string :=
  "/" ++ JS.join "/" (JS.filterBoolean (map JS.trimSlashes paths)).

(** [methodNode.path ? joinPaths(base, methodNode.path) : base]. *)
Definition checkPath (base : string) (suffix : option string) : string :=
  match suffix with
  | Some p => if JS.truthy p then joinPaths [base; p] else base
  | None => base
  end.

(** One method node tested against the request: the two places of
    [findRoute] that do it share this code. *)
Definition tryMethod (node : ServerNode) (method path base : string)
    (middlewares : list MiddlewareHandler) : option MatchedRoute :=
  match node with
  | MethodN methodNode =>
      if String.eqb (methodName (mn_method methodNode)) method then
        let r := matchPath (checkPath base (mn_path methodNode)) path in
        if match_ r then Some (mkMatched methodNode (params r) middlewares)
        else None
      else None
  | _ => None
  end.

(** The first loop of the route branch: the method nodes directly inside. *)
Fixpoint findDirect (children : list ServerNode) (method path fullPath : string)
    (middlewares : list MiddlewareHandler) : option MatchedRoute :=
  match children with
  | [] => None
  | child :: rest =>
      match tryMethod child method path fullPath middlewares with
      | Some r => Some r
      | None => findDirect rest method path fullPath middlewares
      end
  end.

(** One iteration of the loop of [findRoute]. *)
Fixpoint findRouteNode (node : ServerNode) (method path basePath : string)
    (middlewares : list MiddlewareHandler) {struct node} : option MatchedRoute :=
  match node with
  | RouteN rpath children rmiddlewares =>
      let fullPath := joinPaths [basePath; rpath] in
      let accumulatedMiddlewares := middlewares ++ rmiddlewares in
      match findDirect children method path fullPath accumulatedMiddlewares with
      | Some r => Some r
      | None =>
          (fix nested (nodes : list ServerNode) : option MatchedRoute :=
             match nodes with
             | [] => None
             | n :: rest =>
                 match findRouteNode n method path fullPath accumulatedMiddlewares with
                 | Some r => Some r
                 | None => nested rest
                 end
             end) children
      end
  | MethodN _ => tryMethod node method path basePath middlewares
  | _ => None
  end.

Fixpoint findRoute (nodes : list ServerNode) (method path basePath : string)
    (middlewares : list MiddlewareHandler) : option MatchedRoute :=
  match nodes with
  | [] => None
  | node :: rest =>
      match findRouteNode node method path basePath middlewares with
      | Some r => Some r
      | None => findRoute rest method path basePath middlewares
      end
  end.

(** ** Running user code *)

(** Which user functions the dispatcher invoked, in order (bookkeeping of
    the model, invisible to user code). *)
Inductive Call : Type :=
| CalledMiddleware (index : nat)
| CalledHandler.

Record World : Type := mkWorld {
  res : ServerResponse;
  emitted : list string;
  calls : list Call
}.

Definition newWorld : World := mkWorld newResponse [] [].

Definition onRes (f : ServerResponse -> ServerResponse) (w : World) : World :=
  mkWorld (f (res w)) (emitted w) (calls w).

Definition emit (label : string) (w : World) : World :=
  mkWorld (res w) (emitted w ++ [label]) (calls w).

Definition recordCall (c : Call) (w : World) : World :=
  mkWorld (res w) (emitted w) (calls w ++ [c]).

Definition withRes (r : ServerResponse) (w : World) : World :=
  mkWorld r (emitted w) (calls w).

(** How an awaited computation ends.  [Pending]: its promise never settles.
    [OutOfFuel]: the model's recursion bound was hit (shown impossible for
    the dispatcher below).  [Detached]: user code called [next] without
    awaiting it; the run is followed up to that call and no further, and
    the properties below say nothing of what the code does from there. *)
Inductive Outcome (R : Type) : Type :=
| Done (r : R)
| Failed (e : Thrown)
| Pending
| OutOfFuel
| Detached.

Arguments Done {R} r.
Arguments Failed {R} e.
Arguments Pending {R}.
Arguments OutOfFuel {R}.
Arguments Detached {R}.

(** The state of one request's chain: the captured [index] and the world. *)
Record ChainState : Type := mkChain {
  index : nat;
  world : World
}.

Definition onWorld (f : World -> World) (st : ChainState) : ChainState :=
  mkChain (index st) (f (world st)).

(** Running a program to completion; [next] is what its continuation does. *)
Fixpoint exec {K R : Type}
    (next : K -> ChainState -> Outcome unit * ChainState)
    (p : Prog K R) (st : ChainState) : Outcome R * ChainState :=
  match p with
  | Return r => (Done r, st)
  | Throw _ e => (Failed e, st)
  | Stall => (Pending, st)
  | SetStatusCode code k => exec next k (onWorld (onRes (res_setStatus code)) st)
  | SetHeader name value k =>
      match res_setHeader name value (res (world st)) with
      | Fine r => exec next k (onWorld (withRes r) st)
      | Threw e => (Failed e, st)
      end
  | Write d k =>
      match res_write d (res (world st)) with
      | Fine r => exec next k (onWorld (withRes r) st)
      | Threw e => (Failed e, st)
      end
  | End d k =>
      match res_end d (res (world st)) with
      | Fine r => exec next k (onWorld (withRes r) st)
      | Threw e => (Failed e, st)
      end
  | Inspect k => exec next (k (res (world st))) st
  | Emit label k => exec next k (onWorld (emit label) st)
  | AwaitNext tok k onError =>
      match next tok st with
      | (Done _, st') => exec next k st'
      | (Failed e, st') => exec next (onError e) st'
      | (Pending, st') => (Pending, st')
      | (OutOfFuel, st') => (OutOfFuel, st')
      | (Detached, st') => (Detached, st')
      end
  | CallNext _ _ => (Detached, st)
  end.

(** The closure [next] of [handleRequest]:
    [if (index < allMiddlewares.length) { const middleware =
    allMiddlewares[index++]; await middleware(ctx, next); }].
    [fuel] bounds the nesting of middleware calls. *)
Fixpoint next (ctx : RequestContext) (allMiddlewares : list MiddlewareHandler)
    (fuel : nat) (tok : unit) (st : ChainState) {struct fuel}
  : Outcome unit * ChainState :=
  if (index st <? length allMiddlewares)%nat then
    match allMiddlewares !! index st with
    | Some middleware =>
        match fuel with
        | 0 => (OutOfFuel, st)
        | S fuel' =>
            exec (next ctx allMiddlewares fuel') (middleware ctx)
              (mkChain (S (index st))
                 (recordCall (CalledMiddleware (index st)) (world st)))
        end
    | None => (Done tt, st)
    end
  else (Done tt, st).

(** A handler holds no continuation. *)
Definition noNext (tok : Empty_set) (st : ChainState)
  : Outcome unit * ChainState :=
  match tok with end.

(** [await matched.node.handler(ctx)]. *)
Definition callHandler (node : MethodNode) (ctx : RequestContext) (w : World)
  : Outcome JsValue * World :=
  let '(o, st) := exec noNext (mn_handler node ctx)
                    (mkChain 0 (recordCall CalledHandler w)) in
  (o, world st).

Section Dispatcher.

(** [new URL(input, base)] ([None]: it throws [TypeError]), [JSON.stringify]
    and [JSON.parse] ([None]: it throws [SyntaxError]) are the platform's. *)
Variable URL_parse : string -> string -> option URL.
Variable JSON_stringify : JsValue -> string.
Variable JSON_parse : string -> option JsValue.

(** [parseBody]: the listeners it registers, run over the stream's events;
    [chunks] is the buffer so far.  A promise settles once, so the events
    after [end] or [error] change nothing. *)
Fixpoint parseBodyFrom (events : list StreamEvent) (chunks : list string)
  : Outcome JsValue :=
  match events with
  | [] => Pending
  | DataEvent chunk :: rest => parseBodyFrom rest (chunks ++ [chunk])
  | EndEvent :: _ =>
      let body := String.concat "" chunks in
      if negb (JS.truthy body) then Done JUndefined
      else match JSON_parse body with
           | Some v => Done v
           | None => Done (JString body)
           end
  | ErrorEvent :: _ => Done JUndefined
  end.

Definition parseBody (req : IncomingMessage) : Outcome JsValue :=
  parseBodyFrom (req_body req) [].

Definition notFoundBody (path method : string) : JsValue :=
  JObject [("error", JString "Not Found"); ("path", JString path);
           ("method", JString method)].

Definition errorMessage (error : Thrown) : string :=
  match error with
  | ErrorObject message => message
  | NonError _ => "Unknown error"
  end.

Definition serverErrorBody (error : Thrown) : JsValue :=
  JObject [("error", JString "Internal Server Error");
           ("message", JString (errorMessage error))].

(** One call of a method of the response by the dispatcher: the new
    response is stored, or the throw leaves the world as it was. *)
Definition finish (a : Attempt ServerResponse) (w : World) : Outcome unit * World :=
  match a with
  | Fine r => (Done tt, withRes r w)
  | Threw e => (Failed e, w)
  end.

(** [res.setHeader("Content-Type", "application/json");
    res.end(JSON.stringify(v))]: when [end] throws, the header is set. *)
Definition sendJson (v : JsValue) (w : World) : Outcome unit * World :=
  match res_setHeader "Content-Type" "application/json" (res w) with
  | Fine r1 => finish (res_end (Some (JSON_stringify v)) r1) (withRes r1 w)
  | Threw e => (Failed e, w)
  end.

(** [(req.method || "GET").toUpperCase()]. *)
Definition requestMethod (req : IncomingMessage) : string :=
  JS.toUpperCase
    (match req_method req with
     | Some m => if JS.truthy m then m else "GET"
     | None => "GET"
     end).

(** [new URL(req.url || "/", `http://${req.headers.host || "localhost"}`)]. *)
Definition requestURL (req : IncomingMessage) : option URL :=
  URL_parse
    (match req_url req with
     | Some target => if JS.truthy target then target else "/"
     | None => "/"
     end)
    ("http://" +:+
     match req_headers req !! "host" with
     | Some host => if JS.truthy host then host else "localhost"
     | None => "localhost"
     end).

Definition invalidURL : Thrown := ErrorObject "Invalid URL".

(** The [matched] of [handleRequest]. *)
Definition resolve (serverNode : ServerNode) (req : IncomingMessage) (url : URL)
  : option MatchedRoute :=
  findRoute (node_children serverNode) (requestMethod req)
    (pathname url) "" (node_middlewares serverNode).

(** The [try] block: the chain, then the handler and its result. *)
Definition tryBlock (matched : MatchedRoute) (ctx : RequestContext) (w : World)
  : Outcome unit * World :=
  let allMiddlewares := mr_middlewares matched in
  match next ctx allMiddlewares (length allMiddlewares) tt (mkChain 0 w) with
  | (Done _, st) =>
      match callHandler (mr_node matched) ctx (world st) with
      | (Done result, w') =>
          if negb (writableEnded (res w')) then
            match result with
            | JUndefined => finish (res_end None (res w')) w'
            | _ => sendJson result w'
            end
          else (Done tt, w')
      | (Failed e, w') => (Failed e, w')
      | (Pending, w') => (Pending, w')
      | (OutOfFuel, w') => (OutOfFuel, w')
      | (Detached, w') => (Detached, w')
      end
  | (Failed e, st) => (Failed e, world st)
  | (Pending, st) => (Pending, world st)
  | (OutOfFuel, st) => (OutOfFuel, world st)
  | (Detached, st) => (Detached, world st)
  end.

(** The [catch] block; it is outside any [try], so the throw of its own
    [setHeader] leaves [handleRequest]. *)
Definition catchBlock (error : Thrown) (w : World) : Outcome unit * World :=
  if negb (writableEnded (res w)) then
    sendJson (serverErrorBody error) (onRes (res_setStatus 500) w)
  else (Done tt, w).

(** The [try] statement as a whole. *)
Definition tryCatch (matched : MatchedRoute) (ctx : RequestContext) (w : World)
  : Outcome unit * World :=
  match tryBlock matched ctx w with
  | (Failed error, w') => catchBlock error w'
  | result => result
  end.

Definition uriError : Thrown := ErrorObject "URI malformed".

Definition handleRequest (serverNode : ServerNode) (req : IncomingMessage)
    (w : World) : Outcome unit * World :=
  match requestURL req with
  | None => (Failed invalidURL, w)
  | Some url =>
      let path := pathname url in
      let method := requestMethod req in
      match parseQueryString (JS.slice1 (search url)) with
      | None => (Failed uriError, w)
      | Some query =>
          match resolve serverNode req url with
          | None =>
              sendJson (notFoundBody path method) (onRes (res_setStatus 404) w)
          | Some matched =>
              match parseBody req with
              | Done body =>
                  tryCatch matched
                    (mkContext req (mr_params matched) query path method body)
                    w
              | Failed e => (Failed e, w)
              | Pending => (Pending, w)
              | OutOfFuel => (OutOfFuel, w)
              | Detached => (Detached, w)
              end
          end
      end
  end.

End Dispatcher.

(** ** [server.ts] and [reconciler.ts] *)


(** [appendInitialChild] and [appendChild] of the host configuration (the
    two have the same body): a middleware child adds its handler to
    [parent.middlewares], any other child is pushed on [parent.children].
    The parents modelled are the nodes that have the two lists, servers and
    routes; for a method or middleware parent the source would create the
    lists on it, a shape [ServerNode] has no place for: [None]. *)
Definition appendChild (parent child : ServerNode) : option ServerNode :=
  match parent with
  | ServerN port children middlewares =>
      Some (match child with
            | MiddlewareN handler => ServerN port children (middlewares ++ [handler])
            | _ => ServerN port (children ++ [child]) middlewares
            end)
  | RouteN rpath children middlewares =>
      Some (match child with
            | MiddlewareN handler => RouteN rpath children (middlewares ++ [handler])
            | _ => RouteN rpath (children ++ [child]) middlewares
            end)
  | _ => None
  end.

(** Appending the children one after the other, as the renderer does for
    the children of an element. *)
Fixpoint appendChildren (parent : ServerNode) (kids : list ServerNode)
  : option ServerNode :=
  match kids with
  | [] => Some parent
  | child :: rest =>
      match appendChild parent child with
      | Some parent' => appendChildren parent' rest
      | None => None
      end
  end.

(** ** Route trees and requests of the repository's tests and README *)

Module Examples.

(** A printer and a reader to stand for [JSON.stringify] and [JSON.parse]
    where a concrete run is shown.  The reader knows the three keyword
    texts only, which is all the runs below need. *)
Definition hexChar (n : nat) : ascii :=
  if (n <? 10)%nat then ascii_of_nat (48 + n) else ascii_of_nat (87 + n).

Definition dquote : ascii := ascii_of_nat 34.
Definition backslash : ascii := ascii_of_nat 92.

Definition escaped (c : ascii) : string := String backslash (String c "").

Definition escapeChar (c : ascii) : string :=
  let n := nat_of_ascii c in
  if (n =? 34)%nat then escaped dquote
  else if (n =? 92)%nat then escaped backslash
  else if (n =? 8)%nat then escaped "b"
  else if (n =? 9)%nat then escaped "t"
  else if (n =? 10)%nat then escaped "n"
  else if (n =? 12)%nat then escaped "f"
  else if (n =? 13)%nat then escaped "r"
  else if (n <? 32)%nat then
    escaped "u" ++ "00" ++ String (hexChar (n / 16)) (String (hexChar (n mod 16)) "")
  else String c "".

Fixpoint escape (s : string) : string :=
  match s with
  | EmptyString => EmptyString
  | String c rest => escapeChar c ++ escape rest
  end.

Definition quote (s : string) : string :=
  String dquote (escape s ++ String dquote "").

Fixpoint printJson (v : JsValue) : string :=
  match v with
  | JUndefined => ""
  | JNull => "null"
  | JBool b => if b then "true" else "false"
  | JNumber n => pretty n
  | JString s => quote s
  | JArray items =>
      "[" ++ JS.join ","
               (map (fun i => match i with
                              | JUndefined => "null"
                              | _ => printJson i
                              end) items) ++ "]"
  | JObject fields =>
      "{" ++ JS.join ","
               (concat
                  (map (fun kv => match kv with
                                  | (_, JUndefined) => []
                                  | (k, x) => [(quote k ++ ":" ++ printJson x)%string]
                                  end) fields)) ++ "}"
  end.

Definition readKeyword (s : string) : option JsValue :=
  if String.eqb s "null" then Some JNull
  else if String.eqb s "true" then Some (JBool true)
  else if String.eqb s "false" then Some (JBool false)
  else None.

(** A reader of request targets to stand for [new URL] where a concrete
    run is shown.  It knows the targets the runs below use, an absolute
    path with or without a query, and the two refusals shown: the target
    [//], which has no host, and a base whose host holds a space. *)
Fixpoint hasSpace (s : string) : bool :=
  match s with
  | EmptyString => false
  | String c rest => Ascii.eqb c " " || hasSpace rest
  end.

Fixpoint cutAtQuery (target : string) : string * string :=
  match target with
  | EmptyString => (EmptyString, EmptyString)
  | String c rest =>
      if Ascii.eqb c "?" then (EmptyString, target)
      else let '(before, query) := cutAtQuery rest in (String c before, query)
  end.

Definition parseTarget (input base : string) : option URL :=
  if String.eqb input "//" || hasSpace base then None
  else
    let '(before, query) := cutAtQuery input in
    Some (mkURL before (if String.eqb query "?" then "" else query)).

Definition get (h : RequestHandler) (p : option string) : ServerNode :=
  MethodN (mkMethod GET h p).

(** A request as the mock of [router.test.ts] builds it. *)
Definition request (m url : string) : IncomingMessage :=
  mkRequest (Some m) (Some url) {[ "host" := "localhost:3000" ]} [EndEvent].

(** The guard of the integration test "should support middleware
    short-circuiting (auth)": without credentials it ends the response
    itself and returns without calling [next]. *)
Definition authGuard : MiddlewareHandler := fun ctx =>
  match req_headers (ctx_req ctx) !! "authorization" with
  | None =>
      SetStatusCode 401
        (SetHeader "Content-Type" "application/json"
           (End (Some (printJson (JObject [("error", JString "Unauthorized")])))
              (Return tt)))
  | Some _ => awaitNext (Return tt)
  end.

Definition secretHandler : RequestHandler := fun _ =>
  Emit "handler" (Return (JObject [("secret", JString "data")])).

Definition protectedServer : ServerNode :=
  ServerN 3000
    [RouteN "/protected" [get secretHandler None] [authGuard]] [].

(** The two pass-through middlewares of "should run middlewares before
    handler". *)
Definition passThrough (label : string) : MiddlewareHandler := fun _ =>
  Emit label (awaitNext (Return tt)).

Definition okHandler : RequestHandler := fun _ =>
  Emit "handler" (Return (JObject [("ok", JBool true)])).

Definition orderedServer : ServerNode :=
  ServerN 3000
    [RouteN "/test" [get okHandler None]
       [passThrough "mw1"; passThrough "mw2"]] [].



(** A root-level middleware and one route: what a miss must not run. *)
Definition loggedServer : ServerNode :=
  ServerN 3000 [RouteN "/exists" [get okHandler None] []]
    [passThrough "root"].

(** A group [/api] whose nested group is declared before its direct
    endpoint; both answer [GET /api/health]. *)
Definition nestedHealth : RequestHandler := fun _ => Return (JString "nested").
Definition directHealth : RequestHandler := fun _ => Return (JString "direct").

Definition apiNodes : list ServerNode :=
  [RouteN "/api"
     [RouteN "/health" [get nestedHealth None] [];
      get directHealth (Some "/health")] []].

(** "should accumulate middlewares through route nesting". *)
Definition scopedNodes : list ServerNode :=
  [RouteN "/api"
     [RouteN "/users" [get okHandler None] [passThrough "mw2"]]
     [passThrough "mw1"]].

(** The guard in front of a second middleware: what runs after a
    short circuit. *)
Definition guardedServer : ServerNode :=
  ServerN 3000
    [RouteN "/protected" [get secretHandler None]
       [authGuard; passThrough "audit"]] [].

Definition guardedContext : RequestContext :=
  mkContext (request "GET" "/protected") ∅ ∅ "/protected" "GET" JUndefined.

(** A request for a path no route has, with a query that is not
    well-formed percent-encoding. *)
Definition malformedQueryRequest : IncomingMessage := request "GET" "/nope?%".


Definition badHostRequest : IncomingMessage :=
  mkRequest (Some "GET") (Some "/nope") {[ "host" := "a b" ]} [EndEvent].

(** A response to which [early] has been written. *)
Definition startedWorld : World :=
  mkWorld (mkResponse 200 ∅ ["early"] true false) [] [].









End Examples.

(** ** Vocabulary of the properties *)

(** What one position of the pattern does to the bindings: a parameter
    segment binds its name, with the sigil stripped, to the path segment. *)
Definition bindSegment (bindings : gmap string string) (pq : string * string)
  : gmap string string :=
  match fst pq with
  | String c name =>
      if Ascii.eqb c ":" then <[name := snd pq]> bindings else bindings
  | EmptyString => bindings
  end.



(** The groups above an endpoint.  [Reaches nodes groups m]: the method
    node [m] sits under the sibling list [nodes] inside the nested groups
    [groups], listed root to leaf with their prefix and middleware. *)
Inductive Reaches
  : list ServerNode -> list (string * list MiddlewareHandler) -> MethodNode -> Prop :=
| reaches_here nodes m :
    In (MethodN m) nodes -> Reaches nodes [] m
| reaches_down nodes rpath children rmiddlewares groups m :
    In (RouteN rpath children rmiddlewares) nodes ->
    Reaches children groups m ->
    Reaches nodes ((rpath, rmiddlewares) :: groups) m.

(** The prefix accumulated below [basePath] through the groups' prefixes,
    one [joinPaths] per group, and the pattern of an endpoint under it. *)
Definition accumulatedPrefix (basePath : string) (prefixes : list string) : string :=
  foldl (fun base p => joinPaths [base; p]) basePath prefixes.

Definition effectivePattern (basePath : string) (prefixes : list string)
    (suffix : option string) : string :=
  checkPath (accumulatedPrefix basePath prefixes) suffix.

(** [methodNode.path], read as a text: absent is empty. *)
Definition suffixText (suffix : option string) : string :=
  match suffix with
  | Some p => p
  | None => ""
  end.

(** What it means that resolution below [basePath], seeded with
    [middlewares], found [r] under [nodes] for the request [method path]. *)
Definition Found (method path : string) (nodes : list ServerNode)
    (basePath : string) (middlewares : list MiddlewareHandler)
    (r : MatchedRoute) : Prop :=
  exists groups,
    Reaches nodes groups (mr_node r) /\
    mr_middlewares r = middlewares ++ concat (map snd groups) /\
    methodName (mn_method (mr_node r)) = method /\
    matchPath (effectivePattern basePath (map fst groups) (mn_path (mr_node r)))
      path = mkPathMatch true (mr_params r).

(** The parts of one [key=value] pair, read off the text: the key is what
    precedes the first equals sign, the value what lies between the first
    and the second one (empty when there is no equals sign). *)
Fixpoint beforeFirst (c : ascii) (s : string) : string :=
  match s with
  | EmptyString => EmptyString
  | String a rest => if Ascii.eqb a c then EmptyString else String a (beforeFirst c rest)
  end.

Fixpoint afterFirst (c : ascii) (s : string) : option string :=
  match s with
  | EmptyString => None
  | String a rest => if Ascii.eqb a c then Some rest else afterFirst c rest
  end.

Definition pairKey (pair_ : string) : string := beforeFirst "=" pair_.

Definition pairValue (pair_ : string) : string :=
  match afterFirst "=" pair_ with
  | Some rest => beforeFirst "=" rest
  | None => ""
  end.

(** The query the pairs describe: each pair with a non-empty key binds the
    decoded key to the decoded value, later pairs over earlier ones. *)
Fixpoint bindPairs (pairs : list string) (query : gmap string string)
  : option (gmap string string) :=
  match pairs with
  | [] => Some query
  | pair_ :: rest =>
      if JS.truthy (pairKey pair_) then
        k ← JS.decodeURIComponent (pairKey pair_);
        v ← JS.decodeURIComponent (pairValue pair_);
        bindPairs rest (<[k := v]> query)
      else bindPairs rest query
  end.




(** The parts [joinPaths] joins: non-empty, no slash at either end. *)
Definition TidyHead (s : string) : Prop :=
  exists c rest, s = String c rest /\ Ascii.eqb c "/" = false.

Definition Tidy (s : string) : Prop :=
  TidyHead s /\ JS.dropTrailingSlashes s = s.

(** The calls of the middlewares at the positions [i] up to [j], in order. *)
Definition callsFromTo (i j : nat) : list Call :=
  map CalledMiddleware (seq i (j - i)).

(** What running user code does to the chain's state, whatever the code:
    the cursor moves forward only, stays within [bound] when it starts
    there, and the calls recorded meanwhile are those of the positions it
    passed, in order. *)
Definition ChainStep (bound : nat) (st st' : ChainState) : Prop :=
  index st <= index st' /\
  (index st <= bound -> index st' <= bound) /\
  calls (world st') = calls (world st) ++ callsFromTo (index st) (index st').

(** A program that acts on the response only: it holds no continuation it
    uses, and neither faults nor stalls.  Since [setHeader] throws once the
    head is sent, and sending the head throws on a status code out of
    range, the programs come in two kinds.  With [body = false] they set
    status codes and headers (names and values that pass Node's checks)
    and send nothing; with [body = true] they set status codes within
    range, write and end, and set no header. *)
Inductive Quiet {K R : Type} (body : bool) : Prog K R -> Prop :=
| quiet_return r : Quiet body (Return r)
| quiet_status code k :
    (body = true -> validStatus code = true) ->
    Quiet body k -> Quiet body (SetStatusCode code k)
| quiet_header name value k :
    body = false ->
    JS.isHttpToken name = true -> JS.headerCharsValid value = true ->
    Quiet body k -> Quiet body (SetHeader name value k)
| quiet_write d k : body = true -> Quiet body k -> Quiet body (Write d k)
| quiet_end d k : body = true -> Quiet body k -> Quiet body (End d k)
| quiet_inspect k : (forall r, Quiet body (k r)) -> Quiet body (Inspect k)
| quiet_emit label k : Quiet body k -> Quiet body (Emit label k).

(** A middleware body that awaits [next] exactly once, with no [try]
    around it, acting on the response before and after. *)
Inductive PassesOn (body : bool) : Prog unit unit -> Prop :=
| passes_await k : Quiet body k -> PassesOn body (awaitNext k)
| passes_status code k :
    (body = true -> validStatus code = true) ->
    PassesOn body k -> PassesOn body (SetStatusCode code k)
| passes_header name value k :
    body = false ->
    JS.isHttpToken name = true -> JS.headerCharsValid value = true ->
    PassesOn body k -> PassesOn body (SetHeader name value k)
| passes_write d k : body = true -> PassesOn body k -> PassesOn body (Write d k)
| passes_inspect k : (forall r, PassesOn body (k r)) -> PassesOn body (Inspect k)
| passes_emit label k : PassesOn body k -> PassesOn body (Emit label k).

(** What such programs need of the response and keep: with [body =
    false], that nothing of it is sent; with [body = true], that its status
    code can be sent. *)
Definition Calm (body : bool) (r : ServerResponse) : Prop :=
  if body then validStatus (statusCode r) = true else headersSent r = false.

(** An endpoint of the tree that answers the request: it sits under
    [nodes] inside [groups], is bound to [method], and its pattern below
    [basePath] matches [path]. *)
Definition Answers (method path : string) (nodes : list ServerNode)
    (basePath : string) (groups : list (string * list MiddlewareHandler))
    (m : MethodNode) : Prop :=
  Reaches nodes groups m /\
  methodName (mn_method m) = method /\
  match_ (matchPath (effectivePattern basePath (map fst groups) (mn_path m)) path)
    = true.

(** No character [c] in [s]. *)
Fixpoint lacks (c : ascii) (s : string) : bool :=
  match s with
  | EmptyString => true
  | String a rest => negb (Ascii.eqb a c) && lacks c rest
  end.

(** The nodes that are not middleware, and the handlers of those that are. *)
Definition isMiddlewareNode (n : ServerNode) : bool :=
  match n with
  | MiddlewareN _ => true
  | _ => false
  end.

Definition middlewareHandlers (kids : list ServerNode) : list MiddlewareHandler :=
  concat (map (fun n => match n with
                        | MiddlewareN handler => [handler]
                        | _ => []
                        end) kids).

Definition otherNodes (kids : list ServerNode) : list ServerNode :=
  List.filter (fun n => negb (isMiddlewareNode n)) kids.

(** * Properties *)

(** ** Strings: splitting, trimming and joining *)

Section StringFacts.

Lemma truthy_true (s : string) : JS.truthy s = true <-> s <> "".
Proof.
  unfold JS.truthy. rewrite negb_true_iff.
  destruct (String.eqb_spec s ""); split; congruence.
Qed.

Lemma truthy_false (s : string) : JS.truthy s = false <-> s = "".
Proof.
  unfold JS.truthy. rewrite negb_false_iff.
  destruct (String.eqb_spec s ""); split; congruence.
Qed.

Lemma app_empty_l (s : string) : "" +:+ s = s.
Proof. reflexivity. Qed.

Lemma app_String (c : ascii) (s1 s2 : string) :
  String c s1 +:+ s2 = String c (s1 +:+ s2).
Proof. reflexivity. Qed.


Lemma split_not_nil (sep : ascii) (s : string) : JS.split sep s <> [].
Proof.
  destruct s as [|c s]; simpl; [discriminate|].
  destruct (Ascii.eqb c sep); [discriminate|].
  destruct (JS.split sep s); discriminate.
Qed.

(** Splitting a text that has a separator in the middle. *)
Lemma split_app_sep (sep : ascii) (s1 s2 : string) :
  JS.split sep (s1 +:+ String sep s2) = JS.split sep s1 ++ JS.split sep s2.
Proof.
  induction s1 as [|c s1 IH]; rewrite ?app_empty_l, ?app_String; simpl.
  - now rewrite Ascii.eqb_refl.
  - destruct (Ascii.eqb c sep); [now rewrite IH|].
    rewrite IH. pose proof (split_not_nil sep s1) as Hne.
    destruct (JS.split sep s1); [contradiction|reflexivity].
Qed.

Lemma filterBoolean_app (xs ys : list string) :
  JS.filterBoolean (xs ++ ys) = JS.filterBoolean xs ++ JS.filterBoolean ys.
Proof. apply List.filter_app. Qed.

Lemma segments_app_slash (s1 s2 : string) :
  segments (s1 +:+ String "/" s2) = segments s1 ++ segments s2.
Proof. unfold segments. now rewrite split_app_sep, filterBoolean_app. Qed.

Lemma segments_empty : segments "" = [].
Proof. reflexivity. Qed.

Lemma segments_leading_slash (s : string) :
  segments (String "/" s) = segments s.
Proof. reflexivity. Qed.

Lemma segments_trailing_slash (s : string) :
  segments (s +:+ "/") = segments s.
Proof.
  rewrite segments_app_slash, segments_empty. apply app_nil_r.
Qed.

Lemma segments_dropLeading (s : string) :
  segments (JS.dropLeadingSlashes s) = segments s.
Proof.
  induction s as [|c s IH]; [reflexivity|].
  cbn [JS.dropLeadingSlashes]. destruct (Ascii.eqb_spec c "/") as [->|Hc].
  - now rewrite IH.
  - reflexivity.
Qed.

Lemma dropTrailing_decompose (s : string) :
  exists n, s = JS.dropTrailingSlashes s +:+ JS.slashes n.
Proof.
  induction s as [|c s [n IH]]; [now exists 0|].
  cbn [JS.dropTrailingSlashes].
  destruct (Ascii.eqb_spec c "/") as [->|Hc]; cbn [andb].
  - destruct (String.eqb_spec (JS.dropTrailingSlashes s) "") as [He|He].
    + exists (S n). rewrite He, app_empty_l in IH.
      rewrite app_empty_l. cbn [JS.slashes]. congruence.
    + exists n. rewrite app_String. congruence.
  - exists n. rewrite app_String. congruence.
Qed.

Lemma segments_slashes (n : nat) : segments (JS.slashes n) = [].
Proof.
  induction n as [|n IH]; [reflexivity|].
  cbn [JS.slashes]. now rewrite segments_leading_slash.
Qed.

Lemma append_empty_r (s : string) : s +:+ "" = s.
Proof.
  induction s as [|c s IH]; rewrite ?app_empty_l, ?app_String; congruence.
Qed.

Lemma segments_app_slashes (s : string) (n : nat) :
  segments (s +:+ JS.slashes n) = segments s.
Proof.
  destruct n as [|n]; cbn [JS.slashes].
  - now rewrite append_empty_r.
  - rewrite segments_app_slash, segments_slashes. apply app_nil_r.
Qed.

Lemma segments_dropTrailing (s : string) :
  segments (JS.dropTrailingSlashes s) = segments s.
Proof.
  destruct (dropTrailing_decompose s) as [n Hn].
  rewrite Hn at 2. now rewrite segments_app_slashes.
Qed.

Lemma segments_trimSlashes (s : string) :
  segments (JS.trimSlashes s) = segments s.
Proof.
  unfold JS.trimSlashes.
  now rewrite segments_dropTrailing, segments_dropLeading.
Qed.

Lemma segments_join (xs : list string) :
  segments (JS.join "/" xs) = concat (map segments xs).
Proof.
  induction xs as [|x xs IH]; [reflexivity|].
  destruct xs as [|y ys].
  - simpl. now rewrite app_nil_r.
  - change (JS.join "/" (x :: y :: ys)) with (x +:+ String "/" (JS.join "/" (y :: ys))).
    rewrite segments_app_slash, IH. reflexivity.
Qed.

Lemma concat_segments_filterBoolean (xs : list string) :
  concat (map segments (JS.filterBoolean xs)) = concat (map segments xs).
Proof.
  induction xs as [|x xs IH]; [reflexivity|].
  simpl. destruct (JS.truthy x) eqn:Hx; simpl.
  - now rewrite IH.
  - apply truthy_false in Hx. subst x. now rewrite IH.
Qed.

(** The segments of a joined path are the segments of its parts. *)
Lemma segments_joinPaths (paths : list string) :
  segments (joinPaths paths) = concat (map segments paths).
Proof.
  unfold joinPaths.
  change ("/" +:+ ?s) with (String "/" s).
  rewrite segments_leading_slash, segments_join, concat_segments_filterBoolean.
  rewrite map_map. f_equal. apply map_ext. intros p. apply segments_trimSlashes.
Qed.

End StringFacts.

(** ** The path matcher *)

Section MatchPath.

Lemma startsWith_colon (s : string) :
  JS.startsWith ":" s = true <-> exists name, s = String ":" name.
Proof.
  destruct s as [|c s].
  - change (JS.startsWith ":" "") with false.
    split; [discriminate|]. intros [? ?]. discriminate.
  - change (JS.startsWith ":" (String c s)) with (Ascii.eqb ":" c && true).
    destruct (Ascii.eqb_spec ":" c) as [<-|Hc]; cbn [andb].
    + split; [eauto|]. reflexivity.
    + split; [discriminate|]. intros [name Hn]. congruence.
Qed.

Lemma matchParts_true (ps qs : list string) (m : gmap string string) :
  match_ (matchParts ps qs m) = true <->
  forall i pat seg, ps !! i = Some pat -> qs !! i = Some seg ->
                    JS.startsWith ":" pat = false -> pat = seg.
Proof.
  revert qs m. induction ps as [|p ps IH]; intros qs m.
  - simpl. split; [|reflexivity]. intros _ i pat seg Hp. discriminate.
  - destruct qs as [|q qs].
    + simpl. split; [|reflexivity]. intros _ i pat seg _ Hq. discriminate.
    + simpl. destruct (JS.startsWith ":" p) eqn:Hcolon.
      * rewrite IH. split.
        -- intros H [|i] pat seg Hp Hq Hlit; simpl in *.
           ++ congruence.
           ++ eauto.
        -- intros H i pat seg Hp Hq. apply (H (S i)); assumption.
      * destruct (String.eqb_spec p q) as [->|Hne]; simpl.
        -- rewrite IH. split.
           ++ intros H [|i] pat seg Hp Hq Hlit; simpl in *.
              ** congruence.
              ** eauto.
           ++ intros H i pat seg Hp Hq. apply (H (S i)); assumption.
        -- split; [discriminate|]. intros H.
           exfalso. apply Hne. now apply (H 0).
Qed.

(** The spec-side binding step and the code's test and slice agree. *)
Lemma bindSegment_code (m : gmap string string) (p q : string) :
  bindSegment m (p, q)
  = if JS.startsWith ":" p then <[JS.slice1 p := q]> m else m.
Proof.
  unfold bindSegment. simpl. destruct p as [|c name].
  - reflexivity.
  - change (JS.startsWith ":" (String c name)) with (Ascii.eqb ":" c && true).
    rewrite andb_true_r, (Ascii.eqb_sym ":" c). reflexivity.
Qed.

(** Assignment through [JS.setProperty] is binding with the key
    [__proto__] left out. *)
Lemma setProperty_delete (k v : string) (m : gmap string string) :
  JS.setProperty k v (delete "__proto__" m) = delete "__proto__" (<[k := v]> m).
Proof.
  unfold JS.setProperty. destruct (String.eqb_spec k "__proto__") as [->|Hk].
  - apply map_eq. intros i. destruct (decide (i = "__proto__")) as [->|Hi].
    + now rewrite !lookup_delete_eq.
    + rewrite !lookup_delete_ne by congruence.
      now rewrite lookup_insert_ne by congruence.
  - symmetry. apply delete_insert_ne. congruence.
Qed.

Lemma setProperty_lookup_proto (k v : string) (m : gmap string string) :
  m !! "__proto__" = None -> JS.setProperty k v m !! "__proto__" = None.
Proof.
  intros Hm. unfold JS.setProperty.
  destruct (String.eqb_spec k "__proto__") as [->|Hk]; [assumption|].
  rewrite lookup_insert_ne by congruence. assumption.
Qed.

Lemma matchParts_params (ps qs : list string) (m : gmap string string) :
  match_ (matchParts ps qs (delete "__proto__" m)) = true ->
  params (matchParts ps qs (delete "__proto__" m))
  = delete "__proto__" (foldl bindSegment m (zip ps qs)).
Proof.
  revert qs m. induction ps as [|p ps IH]; intros qs m; [reflexivity|].
  destruct qs as [|q qs]; [reflexivity|].
  cbn [matchParts zip zip_with foldl]. rewrite bindSegment_code.
  destruct (JS.startsWith ":" p).
  - rewrite setProperty_delete. apply IH.
  - destruct (String.eqb p q); simpl; [apply IH|discriminate].
Qed.




Lemma lookup_zip_fst {A B} (xs : list A) (ys : list B) (i : nat) (x : A) (y : B) :
  zip xs ys !! i = Some (x, y) -> xs !! i = Some x.
Proof.
  revert ys i. induction xs as [|x' xs IH]; intros [|y' ys] [|i]; simpl;
    try discriminate; try congruence. apply IH.
Qed.



Lemma matchPath_params (pattern path : string) :
  match_ (matchPath pattern path) = true ->
  params (matchPath pattern path)
  = delete "__proto__"
      (foldl bindSegment ∅ (zip (segments pattern) (segments path))).
Proof.
  unfold matchPath.
  destruct (negb (length (segments pattern) =? length (segments path))%nat);
    [discriminate|].
  rewrite <- (delete_empty (M := gmap string) (A := string) "__proto__") at 1 2.
  apply matchParts_params.
Qed.


End MatchPath.




(** ** The route resolver *)

Section Resolver.

(** Induction over a tree whose nodes hold lists of nodes. *)
Lemma ServerNode_nested_ind (P : ServerNode -> Prop) :
  (forall port cs ms, Forall P cs -> P (ServerN port cs ms)) ->
  (forall rpath cs ms, Forall P cs -> P (RouteN rpath cs ms)) ->
  (forall m, P (MethodN m)) ->
  (forall h, P (MiddlewareN h)) ->
  forall n, P n.
Proof.
  intros Hserver Hroute Hmethod Hmw. fix IH 1.
  intros [port cs ms|rpath cs ms|m|h].
  - apply Hserver. induction cs as [|c cs IHcs]; constructor; [apply IH|exact IHcs].
  - apply Hroute. induction cs as [|c cs IHcs]; constructor; [apply IH|exact IHcs].
  - apply Hmethod.
  - apply Hmw.
Qed.

Variables (method path : string).

(** The route branch, with its second loop read as the recursive call it
    is in the source. *)
Lemma findRouteNode_route rpath children rmws basePath mws :
  findRouteNode (RouteN rpath children rmws) method path basePath mws =
  match findDirect children method path (joinPaths [basePath; rpath])
          (mws ++ rmws) with
  | Some r => Some r
  | None => findRoute children method path (joinPaths [basePath; rpath])
              (mws ++ rmws)
  end.
Proof.
  cbn [findRouteNode].
  destruct (findDirect children method path _ _); [reflexivity|].
  induction children as [|c cs IH]; [reflexivity|].
  cbn [findRoute]. now rewrite IH.
Qed.

Lemma tryMethod_Some node base mws r :
  tryMethod node method path base mws = Some r ->
  node = MethodN (mr_node r) /\ mr_middlewares r = mws /\
  methodName (mn_method (mr_node r)) = method /\
  matchPath (checkPath base (mn_path (mr_node r))) path
    = mkPathMatch true (mr_params r).
Proof.
  destruct node as [| |m|]; try discriminate. cbn [tryMethod].
  destruct (String.eqb_spec (methodName (mn_method m)) method) as [Hm|];
    [|discriminate].
  destruct (matchPath _ path) as [[] ps] eqn:Hmatch; cbn [match_ params];
    [|discriminate].
  intros [= <-]. cbn. auto.
Qed.

Lemma findDirect_Some children fullPath mws r :
  findDirect children method path fullPath mws = Some r ->
  exists pre post,
    children = pre ++ MethodN (mr_node r) :: post /\
    (forall c, In c pre -> tryMethod c method path fullPath mws = None) /\
    tryMethod (MethodN (mr_node r)) method path fullPath mws = Some r.
Proof.
  induction children as [|c cs IH]; [discriminate|]. cbn [findDirect].
  destruct (tryMethod c method path fullPath mws) as [r'|] eqn:Hc.
  - intros [= ->]. exists [], cs.
    destruct (tryMethod_Some _ _ _ _ Hc) as (-> & _). cbn.
    split; [reflexivity|]. split; [tauto|exact Hc].
  - intros Hr. destruct (IH Hr) as (pre & post & -> & Hpre & Hhit).
    exists (c :: pre), post. split; [reflexivity|]. split; [|exact Hhit].
    intros c' [<-|Hin]; auto.
Qed.

Lemma findDirect_hit children fullPath mws m :
  In (MethodN m) children ->
  methodName (mn_method m) = method ->
  match_ (matchPath (checkPath fullPath (mn_path m)) path) = true ->
  exists r, findDirect children method path fullPath mws = Some r.
Proof.
  intros Hin Hm Hmatch. induction children as [|c cs IH]; [contradiction|].
  cbn [findDirect].
  destruct (tryMethod c method path fullPath mws) as [r|] eqn:Hc; [eauto|].
  destruct Hin as [->|Hin]; [|auto].
  cbn [tryMethod] in Hc. rewrite Hm, String.eqb_refl, Hmatch in Hc.
  discriminate.
Qed.

Lemma Reaches_incl nodes nodes' groups m :
  (forall n, In n nodes -> In n nodes') ->
  Reaches nodes groups m -> Reaches nodes' groups m.
Proof.
  intros Hincl Hreach. destruct Hreach as [nodes m Hin|nodes ? ? ? ? m Hin Hdown].
  - apply reaches_here. auto.
  - eapply reaches_down; eauto.
Qed.

Lemma Found_incl nodes nodes' basePath mws r :
  (forall n, In n nodes -> In n nodes') ->
  Found method path nodes basePath mws r ->
  Found method path nodes' basePath mws r.
Proof.
  intros Hincl (groups & Hreach & Hrest).
  exists groups. split; [eapply Reaches_incl; eauto|exact Hrest].
Qed.

Lemma Found_down rpath children rmws basePath mws r :
  Found method path children (joinPaths [basePath; rpath]) (mws ++ rmws) r ->
  Found method path [RouteN rpath children rmws] basePath mws r.
Proof.
  intros (groups & Hreach & Hmw & Hm & Hmatch).
  exists ((rpath, rmws) :: groups). split; [|split; [|split]].
  - eapply reaches_down; [now left|exact Hreach].
  - rewrite Hmw. cbn. now rewrite <- app_assoc.
  - exact Hm.
  - exact Hmatch.
Qed.

Lemma tryMethod_Found node basePath mws r :
  tryMethod node method path basePath mws = Some r ->
  Found method path [node] basePath mws r.
Proof.
  intros Hhit. destruct (tryMethod_Some _ _ _ _ Hhit) as (-> & Hmw & Hm & Hmatch).
  exists []. split; [|split; [|split]].
  - apply reaches_here. now left.
  - cbn. now rewrite app_nil_r.
  - exact Hm.
  - exact Hmatch.
Qed.

Lemma findRoute_lift nodes :
  Forall (fun n => forall basePath mws r,
            findRouteNode n method path basePath mws = Some r ->
            Found method path [n] basePath mws r) nodes ->
  forall basePath mws r,
    findRoute nodes method path basePath mws = Some r ->
    Found method path nodes basePath mws r.
Proof.
  induction 1 as [|n nodes Hn _ IH]; intros basePath mws r; [discriminate|].
  cbn [findRoute].
  destruct (findRouteNode n method path basePath mws) as [r'|] eqn:Hfirst.
  - intros [= ->]. apply (Found_incl [n]); [|now apply Hn].
    intros ? [<-|[]]. now left.
  - intros Hrest. apply (Found_incl nodes); [|now apply IH].
    intros ? ?. now right.
Qed.

Lemma findRouteNode_sound n :
  forall basePath mws r,
    findRouteNode n method path basePath mws = Some r ->
    Found method path [n] basePath mws r.
Proof.
  induction n as [port cs ms IH|rpath cs ms IH|m|h] using ServerNode_nested_ind;
    intros basePath mws r; try discriminate.
  - rewrite findRouteNode_route.
    destruct (findDirect cs method path _ _) as [r'|] eqn:Hdirect.
    + intros [= ->]. apply Found_down.
      destruct (findDirect_Some _ _ _ _ Hdirect) as (pre & post & -> & _ & Hhit).
      apply (Found_incl [MethodN (mr_node r)]); [|now apply tryMethod_Found].
      intros ? [<-|[]]. apply in_or_app. right. now left.
    + intros Hnested. apply Found_down. now apply findRoute_lift.
  - apply tryMethod_Found.
Qed.

(** What a successful resolution found, and where. *)
Lemma findRoute_sound nodes basePath mws r :
  findRoute nodes method path basePath mws = Some r ->
  Found method path nodes basePath mws r.
Proof.
  apply findRoute_lift. apply Forall_forall. intros n _.
  apply findRouteNode_sound.
Qed.

End Resolver.

Lemma findRoute_app (before after : list ServerNode) (method path basePath : string)
    (mws : list MiddlewareHandler) :
  findRoute (before ++ after) method path basePath mws =
  match findRoute before method path basePath mws with
  | Some r => Some r
  | None => findRoute after method path basePath mws
  end.
Proof.
  induction before as [|n before IH]; [reflexivity|].
  cbn [app findRoute].
  destruct (findRouteNode n method path basePath mws); [reflexivity|exact IH].
Qed.

(** C4. Siblings are tried in declaration order, and inside a group every
    endpoint declared directly in it is tested, against the group's
    accumulated prefix and the endpoint's suffix, before any nested group is
    entered: when the siblings before a group yield nothing and some direct
    endpoint of the group matches, resolution returns the first matching
    direct endpoint with the group's accumulated middleware, whatever the
    nested groups of the group (and the siblings after it) contain. *)
Theorem findRoute_direct_before_nested
    (before rest children : list ServerNode) (rpath : string)
    (rmws mws : list MiddlewareHandler) (method path basePath : string)
    (m : MethodNode) :
  findRoute before method path basePath mws = None ->
  In (MethodN m) children ->
  methodName (mn_method m) = method ->
  match_ (matchPath (checkPath (joinPaths [basePath; rpath]) (mn_path m)) path)
    = true ->
  (forall earlier later,
     findRoute (earlier ++ later) method path basePath mws
     = match findRoute earlier method path basePath mws with
       | Some found => Some found
       | None => findRoute later method path basePath mws
       end)
  /\ exists r pre post,
       findRoute (before ++ RouteN rpath children rmws :: rest) method path
         basePath mws = Some r /\
       children = pre ++ MethodN (mr_node r) :: post /\
       (forall c, In c pre ->
          tryMethod c method path (joinPaths [basePath; rpath]) (mws ++ rmws)
          = None) /\
       mr_middlewares r = mws ++ rmws /\
       matchPath (checkPath (joinPaths [basePath; rpath]) (mn_path (mr_node r)))
         path = mkPathMatch true (mr_params r).
Proof.
  intros Hbefore Hin Hmethod Hmatch.
  split; [intros; apply findRoute_app|].
  destruct (findDirect_hit method path children (joinPaths [basePath; rpath])
              (mws ++ rmws) m Hin Hmethod Hmatch) as [r Hdirect].
  destruct (findDirect_Some _ _ _ _ _ _ Hdirect) as (pre & post & Hsplit & Hpre & Hhit).
  destruct (tryMethod_Some _ _ _ _ _ _ Hhit) as (_ & Hmw & _ & Hpattern).
  exists r, pre, post. split; [|auto].
  rewrite findRoute_app, Hbefore. cbn [findRoute].
  now rewrite findRouteNode_route, Hdirect.
Qed.

Lemma findRoute_direct_before_nested_witness :
  exists r pre post,
    findRoute Examples.apiNodes "GET" "/api/health" "" [] = Some r /\
    [RouteN "/health" [Examples.get Examples.nestedHealth None] [];
     Examples.get Examples.directHealth (Some "/health")]
      = pre ++ MethodN (mr_node r) :: post /\
    (forall c, In c pre ->
       tryMethod c "GET" "/api/health" (joinPaths [""; "/api"]) ([] ++ []) = None) /\
    mr_middlewares r = [] ++ [] /\
    matchPath (checkPath (joinPaths [""; "/api"]) (mn_path (mr_node r)))
      "/api/health" = mkPathMatch true (mr_params r).
Proof.
  apply (findRoute_direct_before_nested [] []
           [RouteN "/health" [Examples.get Examples.nestedHealth None] [];
            Examples.get Examples.directHealth (Some "/health")]
           "/api" [] [] "GET" "/api/health" ""
           (mkMethod GET Examples.directHealth (Some "/health"))).
  - reflexivity.
  - right. left. reflexivity.
  - reflexivity.
  - reflexivity.
Defined.

Lemma concat_two_blocks {A} (l : list (list A)) (i j : nat) (a b : list A) :
  i < j -> l !! i = Some a -> l !! j = Some b ->
  exists l1 l2 l3, concat l = l1 ++ a ++ l2 ++ b ++ l3.
Proof.
  intros Hij Ha Hb.
  rewrite <- (take_drop_middle l i a Ha).
  assert (Hb' : drop (S i) l !! (j - S i) = Some b).
  { rewrite lookup_drop. replace (S i + (j - S i)) with j by lia. exact Hb. }
  rewrite <- (take_drop_middle _ _ _ Hb').
  exists (concat (take i l)), (concat (take (j - S i) (drop (S i) l))),
    (concat (drop (S (j - S i)) (drop (S i) l))).
  rewrite concat_app. cbn [concat]. rewrite concat_app. cbn [concat].
  reflexivity.
Qed.

(** C5. The middleware list resolution returns is the seed followed by the
    middleware of the groups around the endpoint, group by group from root
    to leaf, each group's in its declaration order: for an endpoint inside
    an outer and an inner group, every middleware of the outer group comes
    before every middleware of the inner one. *)
Theorem findRoute_outer_middleware_first
    (nodes : list ServerNode) (method path basePath : string)
    (mws : list MiddlewareHandler) (r : MatchedRoute) :
  findRoute nodes method path basePath mws = Some r ->
  exists groups,
    Reaches nodes groups (mr_node r) /\
    mr_middlewares r = mws ++ concat (map snd groups) /\
    forall i j outer inner,
      i < j -> groups !! i = Some outer -> groups !! j = Some inner ->
      exists l1 l2 l3,
        mr_middlewares r = l1 ++ snd outer ++ l2 ++ snd inner ++ l3.
Proof.
  intros Hfind.
  destruct (findRoute_sound _ _ _ _ _ _ Hfind) as (groups & Hreach & Hmw & _).
  exists groups. split; [exact Hreach|]. split; [exact Hmw|].
  intros i j outer inner Hij Hi Hj.
  destruct (concat_two_blocks (map snd groups) i j (snd outer) (snd inner) Hij)
    as (l1 & l2 & l3 & Hcat).
  - now rewrite list_lookup_fmap, Hi.
  - now rewrite list_lookup_fmap, Hj.
  - exists (mws ++ l1), l2, l3. rewrite Hmw, Hcat. now rewrite <- app_assoc.
Qed.

Lemma findRoute_outer_middleware_first_witness :
  exists r groups,
    findRoute Examples.scopedNodes "GET" "/api/users" "" [] = Some r /\
    Reaches Examples.scopedNodes groups (mr_node r) /\
    mr_middlewares r = [] ++ concat (map snd groups) /\
    forall i j outer inner,
      i < j -> groups !! i = Some outer -> groups !! j = Some inner ->
      exists l1 l2 l3,
        mr_middlewares r = l1 ++ snd outer ++ l2 ++ snd inner ++ l3.
Proof.
  eexists. 
  destruct (findRoute_outer_middleware_first Examples.scopedNodes "GET"
              "/api/users" "" []
              (mkMatched (mkMethod GET Examples.okHandler None) ∅
                 [Examples.passThrough "mw1"; Examples.passThrough "mw2"]))
    as (groups & H).
  - reflexivity.
  - exists groups. split; [reflexivity|exact H].
Defined.

(** ** Joined paths and the effective pattern *)

Lemma matchPath_segments (p1 p2 path : string) :
  segments p1 = segments p2 -> matchPath p1 path = matchPath p2 path.
Proof. unfold matchPath. now intros ->. Qed.

Lemma segments_checkPath (base : string) (suffix : option string) :
  segments (checkPath base suffix) = segments base ++ segments (suffixText suffix).
Proof.
  destruct suffix as [p|]; cbn [checkPath suffixText].
  - destruct (JS.truthy p) eqn:Hp.
    + rewrite segments_joinPaths. cbn. now rewrite app_nil_r.
    + apply truthy_false in Hp. subst p. now rewrite segments_empty, app_nil_r.
  - now rewrite segments_empty, app_nil_r.
Qed.

Lemma segments_accumulatedPrefix (base : string) (prefixes : list string) :
  segments (accumulatedPrefix base prefixes)
  = segments base ++ concat (map segments prefixes).
Proof.
  unfold accumulatedPrefix. revert base.
  induction prefixes as [|p ps IH]; intros base; cbn [foldl map concat].
  - now rewrite app_nil_r.
  - rewrite IH, segments_joinPaths. cbn. now rewrite app_nil_r, <- app_assoc.
Qed.

Lemma segments_effectivePattern (base : string) (prefixes : list string)
    (suffix : option string) :
  segments (effectivePattern base prefixes suffix)
  = segments (joinPaths (base :: prefixes ++ [suffixText suffix])).
Proof.
  unfold effectivePattern.
  rewrite segments_checkPath, segments_accumulatedPrefix, segments_joinPaths.
  cbn [map concat]. rewrite map_app, concat_app. cbn.
  now rewrite app_nil_r, <- app_assoc.
Qed.

(** *** Nested [joinPaths] flatten *)

Lemma append_assoc (a b c : string) : (a +:+ b) +:+ c = a +:+ (b +:+ c).
Proof.
  induction a as [|x a IH]; rewrite ?app_empty_l, ?app_String; congruence.
Qed.

(** A text with no slash at either end. *)
Lemma dropTrailing_idem (s : string) :
  JS.dropTrailingSlashes (JS.dropTrailingSlashes s) = JS.dropTrailingSlashes s.
Proof.
  induction s as [|c s IH]; [reflexivity|]. cbn [JS.dropTrailingSlashes].
  destruct (Ascii.eqb c "/" && String.eqb (JS.dropTrailingSlashes s) "") eqn:Hc;
    [reflexivity|].
  cbn [JS.dropTrailingSlashes]. now rewrite IH, Hc.
Qed.

Lemma dropLeading_fixed (s : string) :
  JS.dropLeadingSlashes (JS.dropLeadingSlashes s) = JS.dropLeadingSlashes s.
Proof.
  induction s as [|c s IH]; [reflexivity|]. cbn [JS.dropLeadingSlashes].
  destruct (Ascii.eqb c "/") eqn:Hc; [exact IH|].
  cbn [JS.dropLeadingSlashes]. now rewrite Hc.
Qed.

Lemma dropLeading_head (s : string) :
  JS.dropLeadingSlashes s = "" \/
  exists c rest, JS.dropLeadingSlashes s = String c rest /\ Ascii.eqb c "/" = false.
Proof.
  induction s as [|c s IH]; [now left|]. cbn [JS.dropLeadingSlashes].
  destruct (Ascii.eqb c "/") eqn:Hc; [exact IH|]. right. eauto.
Qed.

Lemma trimSlashes_head (s : string) :
  JS.trimSlashes s = "" \/
  exists c rest, JS.trimSlashes s = String c rest /\ Ascii.eqb c "/" = false.
Proof.
  unfold JS.trimSlashes.
  destruct (dropLeading_head s) as [->|(c & rest & -> & Hc)]; [now left|].
  right. cbn [JS.dropTrailingSlashes]. rewrite Hc. cbn [andb]. eauto.
Qed.

Lemma trimSlashes_tail (s : string) :
  JS.dropTrailingSlashes (JS.trimSlashes s) = JS.trimSlashes s.
Proof. apply dropTrailing_idem. Qed.

Lemma dropTrailing_app (x z : string) :
  JS.dropTrailingSlashes z = z -> z <> "" ->
  JS.dropTrailingSlashes (x +:+ z) = x +:+ z.
Proof.
  intros Hz Hne. induction x as [|c x IH]; rewrite ?app_empty_l, ?app_String;
    [exact Hz|].
  cbn [JS.dropTrailingSlashes]. rewrite IH.
  destruct (String.eqb_spec (x +:+ z) "") as [He|_].
  - destruct x; rewrite ?app_empty_l, ?app_String in He; congruence.
  - now rewrite andb_false_r.
Qed.

Lemma tidy_parts (paths : list string) :
  Forall Tidy (JS.filterBoolean (map JS.trimSlashes paths)).
Proof.
  induction paths as [|p paths IH]; [constructor|].
  cbn [map JS.filterBoolean List.filter].
  destruct (JS.truthy (JS.trimSlashes p)) eqn:Hp; [|exact IH].
  constructor; [|exact IH]. split; [|apply trimSlashes_tail].
  destruct (trimSlashes_head p) as [He|H]; [|exact H].
  rewrite He in Hp. discriminate.
Qed.

Lemma tidy_join (xs : list string) :
  Forall Tidy xs -> xs <> [] -> Tidy (JS.join "/" xs).
Proof.
  induction 1 as [|x xs [(c & rest & -> & Hc) Hx] Hxs IH]; [congruence|].
  intros _. destruct xs as [|y ys]; [now split; [exists c, rest|]|].
  change (JS.join "/" (String c rest :: y :: ys))
    with (String c rest +:+ String "/" (JS.join "/" (y :: ys))).
  destruct (IH ltac:(discriminate)) as [(d & tail & Hd & Hdc) Htail].
  split.
  - rewrite app_String. now exists c, (rest +:+ String "/" (JS.join "/" (y :: ys))).
  - apply dropTrailing_app; [|discriminate].
    cbn [JS.dropTrailingSlashes]. rewrite Htail, Hd. reflexivity.
Qed.

Lemma trimSlashes_tidy (s : string) : Tidy s -> JS.trimSlashes (String "/" s) = s.
Proof.
  intros [(c & rest & -> & Hc) Htail]. unfold JS.trimSlashes.
  cbn [JS.dropLeadingSlashes]. rewrite Ascii.eqb_refl. cbn [JS.dropLeadingSlashes].
  rewrite Hc. exact Htail.
Qed.

Lemma join_app (xs ys : list string) :
  xs <> [] -> ys <> [] ->
  JS.join "/" (xs ++ ys) = JS.join "/" xs +:+ String "/" (JS.join "/" ys).
Proof.
  intros Hxs Hys. induction xs as [|x xs IH]; [congruence|].
  destruct xs as [|x' xs].
  - destruct ys as [|y ys]; [congruence|]. reflexivity.
  - change (JS.join "/" ((x :: x' :: xs) ++ ys))
      with (x +:+ String "/" (JS.join "/" ((x' :: xs) ++ ys))).
    rewrite IH by discriminate.
    change (JS.join "/" (x :: x' :: xs))
      with (x +:+ String "/" (JS.join "/" (x' :: xs))).
    now rewrite append_assoc, app_String.
Qed.

(** [joinPaths(joinPaths(...paths), p)] is [joinPaths(...paths, p)]. *)
Lemma joinPaths_nested (paths : list string) (p : string) :
  joinPaths [joinPaths paths; p] = joinPaths (paths ++ [p]).
Proof.
  unfold joinPaths at 1 3. f_equal. rewrite map_app, filterBoolean_app.
  pose proof (tidy_parts paths) as Htidy.
  unfold joinPaths. change ("/" +:+ ?s) with (String "/" s).
  set (xs := JS.filterBoolean (map JS.trimSlashes paths)) in *.
  cbn [map]. destruct xs as [|x xs'] eqn:Hxs.
  - reflexivity.
  - rewrite <- Hxs in *. assert (Hne : xs <> []) by (rewrite Hxs; discriminate).
    pose proof (tidy_join xs Htidy Hne) as Hjoin.
    rewrite (trimSlashes_tidy _ Hjoin).
    cbn [JS.filterBoolean List.filter].
    destruct Hjoin as [(c & rest & Hc & _) _]. rewrite Hc at 1. cbn [JS.truthy String.eqb negb].
    destruct (JS.truthy (JS.trimSlashes p)) eqn:Hp.
    + rewrite join_app by (assumption || discriminate). reflexivity.
    + now rewrite app_nil_r.
Qed.

Lemma joinPaths_empty_last (paths : list string) :
  joinPaths (paths ++ [""]) = joinPaths paths.
Proof.
  unfold joinPaths. rewrite map_app, filterBoolean_app. cbn. now rewrite app_nil_r.
Qed.

Lemma accumulatedPrefix_joinPaths (paths prefixes : list string) :
  accumulatedPrefix (joinPaths paths) prefixes = joinPaths (paths ++ prefixes).
Proof.
  unfold accumulatedPrefix. revert paths.
  induction prefixes as [|p ps IH]; intros paths; cbn [foldl].
  - now rewrite app_nil_r.
  - rewrite joinPaths_nested, IH. now rewrite <- app_assoc.
Qed.

(** Except for an endpoint under no group and with no suffix, whose pattern
    is the base path as it is, the pattern is one [joinPaths] of all parts. *)
Lemma effectivePattern_joinPaths (base : string) (prefixes : list string)
    (suffix : option string) :
  prefixes <> [] \/ JS.truthy (suffixText suffix) = true ->
  effectivePattern base prefixes suffix
  = joinPaths (base :: prefixes ++ [suffixText suffix]).
Proof.
  intros Hparts. unfold effectivePattern.
  assert (Hfull : prefixes <> [] ->
            accumulatedPrefix base prefixes = joinPaths (base :: prefixes)).
  { destruct prefixes as [|p ps]; [congruence|]. intros _.
    change (accumulatedPrefix base (p :: ps))
      with (accumulatedPrefix (joinPaths [base; p]) ps).
    now rewrite accumulatedPrefix_joinPaths. }
  destruct suffix as [s|]; cbn [checkPath suffixText] in *.
  - destruct (JS.truthy s) eqn:Hs.
    + destruct prefixes as [|p ps]; [reflexivity|].
      rewrite Hfull by discriminate.
      now rewrite joinPaths_nested.
    + apply truthy_false in Hs. subst s.
      destruct Hparts as [Hne|Hs]; [|discriminate].
      rewrite (Hfull Hne).
      change (base :: prefixes ++ [""]) with ((base :: prefixes) ++ [""]).
      now rewrite joinPaths_empty_last.
  - destruct Hparts as [Hne|Hs]; [|discriminate].
    rewrite (Hfull Hne).
    change (base :: prefixes ++ [""]) with ((base :: prefixes) ++ [""]).
    now rewrite joinPaths_empty_last.
Qed.

(** C9. The pattern a resolved endpoint was matched against is the prefix
    of every group around it, root to leaf, followed by the endpoint's own
    optional suffix, put together by [joinPaths]: it is the [joinPaths] of
    those parts (for an endpoint under no group and without suffix, the
    base path itself), its segments are the segments of the parts in that
    order, and matching against it is matching against their [joinPaths].
    [joinPaths("/api/", "/users/")] is [/api/users] and [joinPaths("", "")]
    is [/]. *)
Theorem findRoute_effective_pattern
    (nodes : list ServerNode) (method path basePath : string)
    (mws : list MiddlewareHandler) (r : MatchedRoute) :
  findRoute nodes method path basePath mws = Some r ->
  (exists groups,
     Reaches nodes groups (mr_node r) /\
     let prefixes := map fst groups in
     let suffix := mn_path (mr_node r) in
     let pattern := effectivePattern basePath prefixes suffix in
     matchPath pattern path = mkPathMatch true (mr_params r) /\
     (prefixes <> [] \/ JS.truthy (suffixText suffix) = true ->
      pattern = joinPaths (basePath :: prefixes ++ [suffixText suffix])) /\
     (prefixes = [] -> JS.truthy (suffixText suffix) = false ->
      pattern = basePath) /\
     segments pattern
       = segments basePath ++ concat (map segments prefixes)
         ++ segments (suffixText suffix) /\
     matchPath pattern path
       = matchPath (joinPaths (basePath :: prefixes ++ [suffixText suffix])) path)
  /\ joinPaths ["/api/"; "/users/"] = "/api/users"
  /\ joinPaths [""; ""] = "/".
Proof.
  intros Hfind. split; [|split; reflexivity].
  destruct (findRoute_sound _ _ _ _ _ _ Hfind) as (groups & Hreach & _ & _ & Hmatch).
  exists groups. split; [exact Hreach|]. cbn zeta.
  split; [exact Hmatch|]. split; [apply effectivePattern_joinPaths|].
  split; [|split].
  - intros -> Hs. unfold effectivePattern. cbn [accumulatedPrefix foldl].
    destruct (mn_path (mr_node r)) as [s|]; cbn [checkPath suffixText] in *;
      [now rewrite Hs|reflexivity].
  - unfold effectivePattern.
    now rewrite segments_checkPath, segments_accumulatedPrefix, <- app_assoc.
  - apply matchPath_segments, segments_effectivePattern.
Qed.

Lemma findRoute_effective_pattern_witness :
  exists r,
    findRoute Examples.scopedNodes "GET" "/api/users" "" [] = Some r /\
    (exists groups,
       Reaches Examples.scopedNodes groups (mr_node r) /\
       let prefixes := map fst groups in
       let suffix := mn_path (mr_node r) in
       let pattern := effectivePattern "" prefixes suffix in
       matchPath pattern "/api/users" = mkPathMatch true (mr_params r) /\
       (prefixes <> [] \/ JS.truthy (suffixText suffix) = true ->
        pattern = joinPaths ("" :: prefixes ++ [suffixText suffix])) /\
       (prefixes = [] -> JS.truthy (suffixText suffix) = false -> pattern = "") /\
       segments pattern
         = segments "" ++ concat (map segments prefixes)
           ++ segments (suffixText suffix) /\
       matchPath pattern "/api/users"
         = matchPath (joinPaths ("" :: prefixes ++ [suffixText suffix]))
             "/api/users").
Proof.
  eexists. split; [reflexivity|].
  apply (findRoute_effective_pattern Examples.scopedNodes "GET" "/api/users" ""
           [] _ eq_refl).
Defined.

(** ** The query string *)

Lemma split_head (c : ascii) (s : string) :
  List.nth 0 (JS.split c s) "" = beforeFirst c s.
Proof.
  induction s as [|a s IH]; [reflexivity|].
  cbn [JS.split beforeFirst]. destruct (Ascii.eqb a c); [reflexivity|].
  pose proof (split_not_nil c s) as Hne.
  destruct (JS.split c s) as [|piece pieces]; [contradiction|].
  cbn in *. now rewrite IH.
Qed.

Lemma split_second (c : ascii) (s : string) :
  List.nth_error (JS.split c s) 1 = beforeFirst c <$> afterFirst c s.
Proof.
  induction s as [|a s IH]; [reflexivity|].
  cbn [JS.split afterFirst]. destruct (Ascii.eqb a c).
  - cbn. rewrite <- split_head.
    pose proof (split_not_nil c s) as Hne.
    destruct (JS.split c s); [contradiction|reflexivity].
  - pose proof (split_not_nil c s) as Hne.
    destruct (JS.split c s) as [|piece pieces]; [contradiction|].
    cbn in *. exact IH.
Qed.

(** The loop of the code binds what the pairs describe, the key
    [__proto__] left out. *)
Lemma parsePairs_bindPairs (pairs : list string) (query : gmap string string) :
  parsePairs pairs (delete "__proto__" query)
  = delete "__proto__" <$> bindPairs pairs query.
Proof.
  revert query. induction pairs as [|p pairs IH]; intros query; [reflexivity|].
  cbn [parsePairs bindPairs]. rewrite split_head, split_second.
  fold (pairKey p). destruct (JS.truthy (pairKey p)); [|apply IH].
  destruct (JS.decodeURIComponent (pairKey p)) as [k|]; [|reflexivity].
  cbn. unfold pairValue.
  destruct (afterFirst "=" p) as [rest|]; cbn.
  - destruct (JS.truthy (beforeFirst "=" rest)) eqn:Hv.
    + destruct (JS.decodeURIComponent _); cbn; [|reflexivity].
      rewrite setProperty_delete. apply IH.
    + apply truthy_false in Hv. rewrite Hv. cbn.
      rewrite setProperty_delete. apply IH.
  - rewrite setProperty_delete. apply IH.
Qed.

Lemma parseQueryString_bindPairs (queryString : string) :
  parseQueryString queryString
  = delete "__proto__" <$> bindPairs (JS.split "&" queryString) ∅.
Proof.
  unfold parseQueryString. destruct (JS.truthy queryString) eqn:Hq; cbn [negb].
  - rewrite <- parsePairs_bindPairs, delete_empty. reflexivity.
  - apply truthy_false in Hq. subst queryString. cbn.
    now rewrite delete_empty.
Qed.







(** ** Body decoding *)

Section Body.

Variable JSON_parse : string -> option JsValue.

Lemma parseBodyFrom_data (chunks buffered : list string) (rest : list StreamEvent) :
  parseBodyFrom JSON_parse (map DataEvent chunks ++ rest) buffered
  = parseBodyFrom JSON_parse rest (buffered ++ chunks).
Proof.
  revert buffered. induction chunks as [|c chunks IH]; intros buffered; cbn.
  - now rewrite app_nil_r.
  - rewrite IH. now rewrite <- app_assoc.
Qed.

Lemma parseBodyFrom_not_Failed (events : list StreamEvent) (buffered : list string)
    (e : Thrown) :
  parseBodyFrom JSON_parse events buffered <> Failed e.
Proof.
  revert buffered. induction events as [|[chunk| |] events IH]; intros buffered;
    cbn [parseBodyFrom]; try discriminate.
  - apply IH.
  - destruct (negb _); [discriminate|]. destruct (JSON_parse _); discriminate.
Qed.

Lemma parseBodyFrom_fuel (events : list StreamEvent) (buffered : list string) :
  parseBodyFrom JSON_parse events buffered <> OutOfFuel.
Proof.
  revert buffered. induction events as [|[chunk| |] events IH]; intros buffered;
    cbn [parseBodyFrom]; try discriminate.
  - apply IH.
  - destruct (negb _); [discriminate|]. destruct (JSON_parse _); discriminate.
Qed.

Lemma parseBodyFrom_not_Detached (events : list StreamEvent)
    (buffered : list string) :
  parseBodyFrom JSON_parse events buffered <> Detached.
Proof.
  revert buffered. induction events as [|[chunk| |] events IH]; intros buffered;
    cbn [parseBodyFrom]; try discriminate.
  - apply IH.
  - destruct (negb _); [discriminate|]. destruct (JSON_parse _); discriminate.
Qed.

End Body.

(** C8. Body decoding never throws.  Whatever [JSON.parse] does: a stream
    that ends with nothing buffered decodes to the "no value" sentinel; one
    that ends with a non-empty text decodes to what [JSON.parse] makes of
    it and, when that throws, to the text itself; a stream error before the
    end gives the sentinel.  So the body [hello world], which is not JSON,
    decodes to the string [hello world]. *)
Theorem parseBody_never_throws (JSON_parse : string -> option JsValue)
    (req : IncomingMessage) :
  (forall e, parseBody JSON_parse req <> Failed e)
  /\ (forall chunks rest,
        req_body req = map DataEvent chunks ++ EndEvent :: rest ->
        String.concat "" chunks = "" ->
        parseBody JSON_parse req = Done JUndefined)
  /\ (forall chunks rest,
        req_body req = map DataEvent chunks ++ EndEvent :: rest ->
        String.concat "" chunks <> "" ->
        parseBody JSON_parse req
        = Done (match JSON_parse (String.concat "" chunks) with
                | Some v => v
                | None => JString (String.concat "" chunks)
                end))
  /\ (forall chunks rest,
        req_body req = map DataEvent chunks ++ ErrorEvent :: rest ->
        parseBody JSON_parse req = Done JUndefined)
  /\ (JSON_parse "hello world" = None ->
      req_body req = [DataEvent "hello world"; EndEvent] ->
      parseBody JSON_parse req = Done (JString "hello world")).
Proof.
  unfold parseBody. split; [|split; [|split; [|split]]].
  - intros e. apply parseBodyFrom_not_Failed.
  - intros chunks rest -> Hempty. rewrite parseBodyFrom_data. cbn.
    now rewrite Hempty.
  - intros chunks rest -> Hne. rewrite parseBodyFrom_data. cbn.
    apply truthy_true in Hne. rewrite Hne. cbn.
    now destruct (JSON_parse _).
  - intros chunks rest ->. now rewrite parseBodyFrom_data.
  - intros Hparse ->. cbn. now rewrite Hparse.
Qed.

Lemma parseBody_never_throws_witness :
  Examples.readKeyword "hello world" = None /\
  parseBody Examples.readKeyword
    (mkRequest (Some "POST") (Some "/echo") ∅
       [DataEvent "hello world"; EndEvent])
  = Done (JString "hello world").
Proof.
  split; [reflexivity|].
  apply (parseBody_never_throws Examples.readKeyword
           (mkRequest (Some "POST") (Some "/echo") ∅
              [DataEvent "hello world"; EndEvent])); reflexivity.
Defined.

(** ** The request method *)





(** ** The middleware chain: the recursion bound is never hit *)

(** The case analysis on a method of the response that may throw. *)
Ltac attempt :=
  match goal with
  | |- context [match ?a with Fine _ => _ | Threw _ => _ end] =>
      destruct a as [?r|?e]
  end.

Section Chain.

Variables (ctx : RequestContext) (allMiddlewares : list MiddlewareHandler).




End Chain.

Section DispatcherFacts.

Variable URL_parse : string -> string -> option URL.
Variable JSON_stringify : JsValue -> string.
Variable JSON_parse : string -> option JsValue.







End DispatcherFacts.

(** ** The dispatcher *)

Section HandlerCalls.

Variable JSON_stringify : JsValue -> string.

(** A handler's own actions leave the record of calls alone. *)
Lemma exec_noNext_calls {R : Type} (p : Prog Empty_set R) (st : ChainState) :
  calls (world (snd (exec noNext p st))) = calls (world st).
Proof.
  revert st. induction p as [r|how e| |code k IH|name value k IH|d k IH|d k IH
                             |k IH|label k IH|[] k IHk onError IHe|[] k IH];
    intros st; cbn [exec]; try reflexivity; try now rewrite IH.
  all: attempt; [now rewrite IH|reflexivity].
Qed.

Lemma finish_calls (a : Attempt ServerResponse) (w : World) :
  calls (snd (finish a w)) = calls w.
Proof. now destruct a. Qed.

Lemma sendJson_calls (v : JsValue) (w : World) :
  calls (snd (sendJson JSON_stringify v w)) = calls w.
Proof.
  unfold sendJson. destruct (res_setHeader _ _ _); [|reflexivity].
  now rewrite finish_calls.
Qed.

(** Once the chain has returned, the handler is called: the [try] block
    does not look at the cursor. *)
Lemma tryBlock_calls_handler (matched : MatchedRoute) (ctx : RequestContext)
    (w : World) (st : ChainState) :
  next ctx (mr_middlewares matched) (length (mr_middlewares matched)) tt
    (mkChain 0 w) = (Done tt, st) ->
  calls (snd (tryBlock JSON_stringify matched ctx w))
  = calls (world st) ++ [CalledHandler].
Proof.
  intros Hchain. unfold tryBlock. rewrite Hchain. unfold callHandler.
  pose proof (exec_noNext_calls (mn_handler (mr_node matched) ctx)
                (mkChain 0 (recordCall CalledHandler (world st)))) as Hcalls.
  destruct (exec noNext _ _) as [[result|e| | |] st']; cbn [snd world] in *;
    try exact Hcalls.
  destruct (negb _); [|exact Hcalls].
  destruct result; now rewrite ?finish_calls, ?sendJson_calls.
Qed.

End HandlerCalls.

(** C1. The specification says that a middleware returning without calling
    its continuation keeps the handler from running.  The code does not do
    that: [handleRequest] awaits [next()] and then calls the handler,
    whatever the cursor is.  With the guard of the README in front of a
    second middleware and a request without credentials, the chain returns
    with the cursor at 1 of 2, the second middleware never runs, and the
    handler is called all the same; its result is dropped because the guard
    has ended the response.  In general the handler is called whenever the
    chain returns. *)
Theorem handler_runs_after_short_circuit :
  let allMiddlewares := [Examples.authGuard; Examples.passThrough "audit"] in
  let chain := next Examples.guardedContext allMiddlewares
                 (length allMiddlewares) tt (mkChain 0 newWorld) in
  let result := handleRequest Examples.parseTarget Examples.printJson
                  Examples.readKeyword Examples.guardedServer
                  (Examples.request "GET" "/protected") newWorld in
  (fst chain = Done tt /\ index (snd chain) = 1 /\
   calls (world (snd chain)) = [CalledMiddleware 0])
  /\ (fst result = Done tt /\
      calls (snd result) = [CalledMiddleware 0; CalledHandler] /\
      emitted (snd result) = ["handler"] /\
      statusCode (res (snd result)) = 401)
  /\ (forall JSON_stringify matched ctx w st,
        next ctx (mr_middlewares matched) (length (mr_middlewares matched)) tt
          (mkChain 0 w) = (Done tt, st) ->
        calls (snd (tryBlock JSON_stringify matched ctx w))
        = calls (world st) ++ [CalledHandler]).
Proof.
  cbv zeta. split; [|split].
  - repeat split; reflexivity.
  - repeat split; reflexivity.
  - intros. now apply tryBlock_calls_handler.
Qed.

Section Dispatch.

Variable URL_parse : string -> string -> option URL.
Variable JSON_stringify : JsValue -> string.
Variable JSON_parse : string -> option JsValue.

(** The dispatcher's own header passes Node's checks. *)
Lemma res_setHeader_json (r : ServerResponse) :
  headersSent r = false ->
  res_setHeader "Content-Type" "application/json" r
  = Fine (mkResponse (statusCode r)
            (<["content-type" := "application/json"]> (headers r)) (chunks r)
            false (writableEnded r)).
Proof. intros Hsent. unfold res_setHeader. rewrite Hsent. reflexivity. Qed.

(** [sendJson] on a response nothing of which has been sent, and on one
    whose headers have been sent. *)
Lemma sendJson_unsent (v : JsValue) (w : World) :
  headersSent (res w) = false -> writableEnded (res w) = false ->
  validStatus (statusCode (res w)) = true ->
  sendJson JSON_stringify v w
  = (Done tt,
     withRes
       (mkResponse (statusCode (res w))
          (<["content-type" := "application/json"]> (headers (res w)))
          (if JS.truthy (JSON_stringify v)
           then chunks (res w) ++ [JSON_stringify v] else chunks (res w))
          true true) w).
Proof.
  intros Hsent Hended Hstatus. unfold sendJson.
  rewrite res_setHeader_json by exact Hsent.
  unfold res_end, sendHead. cbn [writableEnded headersSent statusCode].
  now rewrite Hended, Hstatus.
Qed.



(** The head of [handleRequest] up to the [try] statement. *)
Lemma handleRequest_tryCatch (serverNode : ServerNode) (req : IncomingMessage)
    (w : World) (url : URL) (query : gmap string string)
    (matched : MatchedRoute) (body : JsValue) :
  requestURL URL_parse req = Some url ->
  parseQueryString (JS.slice1 (search url)) = Some query ->
  resolve serverNode req url = Some matched ->
  parseBody JSON_parse req = Done body ->
  handleRequest URL_parse JSON_stringify JSON_parse serverNode req w
  = tryCatch JSON_stringify matched
      (mkContext req (mr_params matched) query (pathname url)
         (requestMethod req) body) w.
Proof.
  intros Hurl Hquery Hmatched Hbody. unfold handleRequest.
  rewrite Hurl. cbv beta iota zeta. now rewrite Hquery, Hmatched, Hbody.
Qed.

Lemma handleRequest_miss (serverNode : ServerNode) (req : IncomingMessage)
    (w : World) (url : URL) (query : gmap string string) :
  requestURL URL_parse req = Some url ->
  parseQueryString (JS.slice1 (search url)) = Some query ->
  resolve serverNode req url = None ->
  headersSent (res w) = false -> writableEnded (res w) = false ->
  handleRequest URL_parse JSON_stringify JSON_parse serverNode req w
  = (Done tt,
     withRes
       (mkResponse 404
          (<["content-type" := "application/json"]> (headers (res w)))
          (let body := JSON_stringify
                         (notFoundBody (pathname url) (requestMethod req)) in
           if JS.truthy body then chunks (res w) ++ [body] else chunks (res w))
          true true)
       (onRes (res_setStatus 404) w)).
Proof.
  intros Hurl Hquery Hmiss Hsent Hended. unfold handleRequest.
  rewrite Hurl. cbv beta iota zeta. rewrite Hquery, Hmiss.
  now rewrite sendJson_unsent by (assumption || reflexivity).
Qed.


End Dispatch.

(** C2, as stated, fails.  The query string is decoded before the route is
    looked up, and a query that is not well-formed percent-encoding makes
    [handleRequest] throw with the response untouched; so does, earlier
    still, a [Host] header [new URL] refuses; and on a response whose
    headers have been sent the [setHeader] of the 404 answer throws. *)
Lemma handleRequest_not_found_counterexample :
  (resolve Examples.loggedServer Examples.malformedQueryRequest (mkURL "/nope" "?%")
   = None /\
   handleRequest Examples.parseTarget Examples.printJson Examples.readKeyword
     Examples.loggedServer Examples.malformedQueryRequest newWorld
   = (Failed uriError, newWorld))
  /\ handleRequest Examples.parseTarget Examples.printJson Examples.readKeyword
       Examples.loggedServer Examples.badHostRequest newWorld
     = (Failed invalidURL, newWorld)
  /\ (statusCode (res newWorld) <> 404 /\ writableEnded (res newWorld) = false)
  /\ (res_write "early" newResponse = Fine (res Examples.startedWorld) /\
      fst (handleRequest Examples.parseTarget Examples.printJson
             Examples.readKeyword Examples.loggedServer
             (Examples.request "GET" "/nope") Examples.startedWorld)
      = Failed headersSentError /\
      writableEnded
        (res (snd (handleRequest Examples.parseTarget Examples.printJson
                     Examples.readKeyword Examples.loggedServer
                     (Examples.request "GET" "/nope") Examples.startedWorld)))
      = false).
Proof. repeat split; try reflexivity. discriminate. Qed.

(** C2, amended.  For every request whose target [new URL] accepts, whose
    query string decodes and whose method and path match no endpoint of
    the tree, given a response nothing of which has been sent, the
    dispatcher ends the response with status 404 and the body [{error:
    "Not Found", path, method}], and calls no middleware, the root's
    included: nothing but the response changes. *)
Theorem handleRequest_not_found
    (URL_parse : string -> string -> option URL)
    (JSON_stringify : JsValue -> string) (JSON_parse : string -> option JsValue)
    (serverNode : ServerNode) (req : IncomingMessage) (w : World) (url : URL)
    (query : gmap string string) :
  requestURL URL_parse req = Some url ->
  parseQueryString (JS.slice1 (search url)) = Some query ->
  findRoute (node_children serverNode) (requestMethod req)
    (pathname url) "" (node_middlewares serverNode) = None ->
  headersSent (res w) = false ->
  writableEnded (res w) = false ->
  exists w',
    handleRequest URL_parse JSON_stringify JSON_parse serverNode req w
    = (Done tt, w') /\
    statusCode (res w') = 404 /\
    writableEnded (res w') = true /\
    headers (res w')
      = <["content-type" := "application/json"]> (headers (res w)) /\
    chunks (res w')
      = (let body := JSON_stringify
                       (JObject [("error", JString "Not Found");
                                 ("path", JString (pathname url));
                                 ("method", JString (requestMethod req))]) in
         if JS.truthy body then chunks (res w) ++ [body] else chunks (res w)) /\
    calls w' = calls w /\
    emitted w' = emitted w.
Proof.
  intros Hurl Hquery Hmiss Hsent Hended.
  rewrite (handleRequest_miss URL_parse JSON_stringify JSON_parse serverNode req
             w url query Hurl Hquery Hmiss Hsent Hended).
  eexists. split; [reflexivity|]. repeat split.
Qed.

Lemma handleRequest_not_found_witness :
  exists w',
    handleRequest Examples.parseTarget Examples.printJson Examples.readKeyword
      Examples.loggedServer (Examples.request "GET" "/nope") newWorld
    = (Done tt, w') /\
    statusCode (res w') = 404 /\
    writableEnded (res w') = true /\
    chunks (res w')
      = [Examples.printJson
           (JObject [("error", JString "Not Found"); ("path", JString "/nope");
                     ("method", JString "GET")])] /\
    calls w' = [] /\
    emitted w' = [].
Proof.
  destruct (handleRequest_not_found Examples.parseTarget Examples.printJson
              Examples.readKeyword Examples.loggedServer
              (Examples.request "GET" "/nope") newWorld (mkURL "/nope" "") ∅
              eq_refl eq_refl eq_refl eq_refl eq_refl)
    as (w' & Hrun & Hstatus & Hended & _ & Hchunks & Hcalls & Hemitted).
  exists w'. repeat split; assumption.
Defined.






(** * Further properties of the code *)

(** ** Resolution finds what the tree holds *)

Lemma findRoute_In (nodes : list ServerNode) (n : ServerNode)
    (method path basePath : string) (mws : list MiddlewareHandler)
    (r : MatchedRoute) :
  In n nodes ->
  findRouteNode n method path basePath mws = Some r ->
  exists r', findRoute nodes method path basePath mws = Some r'.
Proof.
  intros Hin Hn. induction nodes as [|n' nodes IH]; [contradiction|].
  cbn [findRoute].
  destruct (findRouteNode n' method path basePath mws) as [r'|] eqn:Hfirst;
    [eauto|].
  destruct Hin as [->|Hin]; [congruence|auto].
Qed.

Lemma findRoute_complete (method path : string) (nodes : list ServerNode)
    (groups : list (string * list MiddlewareHandler)) (m : MethodNode) :
  Reaches nodes groups m ->
  forall basePath mws,
    methodName (mn_method m) = method ->
    match_ (matchPath (effectivePattern basePath (map fst groups) (mn_path m)) path)
      = true ->
    exists r, findRoute nodes method path basePath mws = Some r.
Proof.
  induction 1 as [nodes m Hin|nodes rpath children rmws groups m Hin _ IH];
    intros basePath mws Hmethod Hmatch.
  - apply (findRoute_In nodes (MethodN m) method path basePath mws
             (mkMatched m (params (matchPath (checkPath basePath (mn_path m)) path))
                mws) Hin).
    cbn [findRouteNode tryMethod]. rewrite Hmethod, String.eqb_refl.
    unfold effectivePattern in Hmatch. cbn in Hmatch. now rewrite Hmatch.
  - destruct (IH (joinPaths [basePath; rpath]) (mws ++ rmws) Hmethod Hmatch)
      as [r Hr].
    destruct (findDirect children method path (joinPaths [basePath; rpath])
                (mws ++ rmws)) as [r'|] eqn:Hdirect.
    + apply (findRoute_In nodes _ method path basePath mws r' Hin).
      now rewrite findRouteNode_route, Hdirect.
    + apply (findRoute_In nodes _ method path basePath mws r Hin).
      now rewrite findRouteNode_route, Hdirect.
Qed.

(** X1. Resolution misses exactly when no endpoint of the tree answers the
    request: [findRoute] returns nothing if and only if no method node,
    at any depth, is bound to the requested method with a pattern (the
    prefixes of the groups around it and its suffix) that matches the path;
    and what it returns is such an endpoint. *)
Theorem findRoute_none_iff (nodes : list ServerNode) (method path basePath : string)
    (mws : list MiddlewareHandler) :
  (findRoute nodes method path basePath mws = None <->
   forall groups m, ~ Answers method path nodes basePath groups m)
  /\ (forall r, findRoute nodes method path basePath mws = Some r ->
        exists groups, Answers method path nodes basePath groups (mr_node r)).
Proof.
  assert (Hsound : forall r,
            findRoute nodes method path basePath mws = Some r ->
            exists groups, Answers method path nodes basePath groups (mr_node r)).
  { intros r Hr.
    destruct (findRoute_sound _ _ _ _ _ _ Hr) as (groups & Hreach & _ & Hm & Hmatch).
    exists groups. unfold Answers. now rewrite Hmatch. }
  split; [|exact Hsound]. split.
  - intros Hnone groups m (Hreach & Hm & Hmatch).
    destruct (findRoute_complete method path nodes groups m Hreach basePath mws
                Hm Hmatch) as [r Hr].
    congruence.
  - intros Hno.
    destruct (findRoute nodes method path basePath mws) as [r|] eqn:Hr;
      [|reflexivity].
    destruct (Hsound r eq_refl) as [groups Hans]. now destruct (Hno groups (mr_node r)).
Qed.

(** X2. A method that is none of the seven [HttpMethod] names resolves to
    nothing, whatever the tree and the path: [findRoute] compares the
    method as given (so also [get] in lower case finds nothing), and a
    request whose method in upper case is no such name is not resolved. *)
Theorem findRoute_unknown_method (nodes : list ServerNode)
    (method path basePath : string) (mws : list MiddlewareHandler) :
  (forall M, methodName M <> method) ->
  findRoute nodes method path basePath mws = None
  /\ (forall serverNode req url,
        requestMethod req = method -> resolve serverNode req url = None).
Proof.
  intros Hunknown.
  assert (Hnone : forall ns base ms, findRoute ns method path base ms = None).
  { intros ns base ms.
    destruct (findRoute ns method path base ms) as [r|] eqn:Hr; [|reflexivity].
    destruct (findRoute_sound _ _ _ _ _ _ Hr) as (_ & _ & _ & Hm & _).
    now destruct (Hunknown (mn_method (mr_node r))). }
  split; [apply Hnone|].
  intros serverNode req url Hreq. unfold resolve. rewrite Hreq.
  destruct (findRoute _ method (pathname url) "" _) as [r|] eqn:Hr;
    [|reflexivity].
  destruct (findRoute_sound _ _ _ _ _ _ Hr) as (_ & _ & _ & Hm & _).
  now destruct (Hunknown (mn_method (mr_node r))).
Qed.

Lemma findRoute_unknown_method_witness :
  findRoute Examples.apiNodes "TRACE" "/api/health" "" [] = None /\
  findRoute Examples.apiNodes "get" "/api/health" "" [] = None.
Proof.
  split.
  - apply (findRoute_unknown_method Examples.apiNodes "TRACE" "/api/health" "" []).
    intros []; discriminate.
  - apply (findRoute_unknown_method Examples.apiNodes "get" "/api/health" "" []).
    intros []; discriminate.
Defined.

(** ** More on the path matcher *)

Lemma matchPath_same_segments (p p' q q' : string) :
  segments p = segments p' -> segments q = segments q' ->
  matchPath p q = matchPath p' q'.
Proof. unfold matchPath. now intros -> ->. Qed.

Lemma segments_double_slash (a b : string) :
  segments (a +:+ "//" +:+ b) = segments (a +:+ "/" +:+ b).
Proof.
  change ("//" +:+ b) with (String "/" (String "/" b)).
  change ("/" +:+ b) with (String "/" b).
  now rewrite !segments_app_slash, segments_leading_slash.
Qed.

(** X3. Matching ignores slashes that delimit nothing: a leading slash, a
    trailing slash or a doubled slash, in the pattern or in the path,
    changes neither the verdict nor the bindings. *)
Theorem matchPath_ignores_extra_slashes (pattern path : string) :
  matchPath (pattern +:+ "/") path = matchPath pattern path
  /\ matchPath pattern (path +:+ "/") = matchPath pattern path
  /\ matchPath (String "/" pattern) path = matchPath pattern path
  /\ matchPath pattern (String "/" path) = matchPath pattern path
  /\ (forall a b, pattern = a +:+ "//" +:+ b ->
                  matchPath pattern path = matchPath (a +:+ "/" +:+ b) path)
  /\ (forall a b, path = a +:+ "//" +:+ b ->
                  matchPath pattern path = matchPath pattern (a +:+ "/" +:+ b)).
Proof.
  split; [|split; [|split; [|split; [|split]]]].
  - exact (matchPath_same_segments _ _ _ _ (segments_trailing_slash pattern) eq_refl).
  - exact (matchPath_same_segments _ _ _ _ eq_refl (segments_trailing_slash path)).
  - exact (matchPath_same_segments _ _ _ _ (segments_leading_slash pattern) eq_refl).
  - exact (matchPath_same_segments _ _ _ _ eq_refl (segments_leading_slash path)).
  - intros a b ->.
    exact (matchPath_same_segments _ _ _ _ (segments_double_slash a b) eq_refl).
  - intros a b ->.
    exact (matchPath_same_segments _ _ _ _ eq_refl (segments_double_slash a b)).
Qed.

Lemma matchParts_literal (ps qs : list string) (m : gmap string string) :
  Forall (fun seg => JS.startsWith ":" seg = false) ps ->
  params (matchParts ps qs m) = m.
Proof.
  intros Hlit. revert qs. induction Hlit as [|p ps Hp _ IH]; intros qs;
    [reflexivity|].
  destruct qs as [|q qs]; [reflexivity|]. cbn [matchParts]. rewrite Hp.
  destruct (String.eqb p q); cbn [negb]; [apply IH|reflexivity].
Qed.

(** X4. A pattern with no parameter segment matches exactly the paths that
    have the same segments, and never binds anything, match or not. *)
Theorem matchPath_literal (pattern path : string) :
  Forall (fun seg => JS.startsWith ":" seg = false) (segments pattern) ->
  (match_ (matchPath pattern path) = true <-> segments pattern = segments path)
  /\ params (matchPath pattern path) = ∅.
Proof.
  intros Hlit. unfold matchPath.
  destruct (Nat.eqb_spec (length (segments pattern)) (length (segments path)))
    as [Hlen|Hlen]; cbn [negb].
  - split; [|now apply matchParts_literal].
    rewrite matchParts_true. split.
    + intros Hall. apply list_eq. intros i.
      destruct (segments pattern !! i) as [pat|] eqn:Hp.
      * destruct (lookup_lt_is_Some_2 (segments path) i) as [seg Hq].
        { rewrite <- Hlen. eapply lookup_lt_Some, Hp. }
        rewrite Hq. f_equal. apply (Hall i pat seg Hp Hq).
        rewrite Forall_forall in Hlit. apply Hlit.
        eapply list_elem_of_lookup_2, Hp.
      * symmetry. apply lookup_ge_None. rewrite <- Hlen.
        now apply lookup_ge_None.
    + intros Heq i pat seg Hp Hq _. rewrite Heq in Hp. congruence.
  - split; [|reflexivity]. split; [discriminate|].
    intros Heq. now rewrite Heq in Hlen.
Qed.

Lemma matchPath_literal_witness :
  (match_ (matchPath "/users/all" "users/all/") = true <->
   segments "/users/all" = segments "users/all/")
  /\ params (matchPath "/users/all" "users/all/") = ∅.
Proof.
  apply (matchPath_literal "/users/all" "users/all/").
  repeat constructor.
Defined.

Lemma split_lacks_sep (c : ascii) (s piece : string) :
  In piece (JS.split c s) -> lacks c piece = true.
Proof.
  revert piece. induction s as [|a s IH]; intros piece; cbn [JS.split].
  - intros [<-|[]]. reflexivity.
  - destruct (Ascii.eqb a c) eqn:Hac.
    + intros [<-|Hin]; [reflexivity|auto].
    + pose proof (split_not_nil c s) as Hne.
      destruct (JS.split c s) as [|first others]; [contradiction|].
      intros [<-|Hin].
      * cbn [lacks]. rewrite Hac. cbn [negb andb]. apply IH. now left.
      * apply IH. now right.
Qed.

Lemma segments_spec (s seg : string) :
  In seg (segments s) -> seg <> "" /\ lacks "/" seg = true.
Proof.
  unfold segments, JS.filterBoolean. rewrite filter_In.
  intros [Hin Htruthy]. split; [now apply truthy_true|].
  eapply split_lacks_sep, Hin.
Qed.

Lemma foldl_bindSegment_source (l : list (string * string)) (name value : string)
    (m : gmap string string) :
  foldl bindSegment m l !! name = Some value ->
  m !! name = Some value \/ exists i, l !! i = Some (String ":" name, value).
Proof.
  revert m. induction l as [|[p q] l IH]; intros m; [now left|].
  cbn [foldl]. intros Hlook. destruct (IH _ Hlook) as [Hm|[i Hi]].
  - rewrite bindSegment_code in Hm.
    destruct (JS.startsWith ":" p) eqn:Hcolon; [|now left].
    apply startsWith_colon in Hcolon as [n ->]. cbn [JS.slice1] in Hm.
    destruct (decide (n = name)) as [->|Hne].
    + rewrite lookup_insert_eq in Hm. injection Hm as ->. right. now exists 0.
    + rewrite lookup_insert_ne in Hm by exact Hne. now left.
  - right. now exists (S i).
Qed.

Lemma lookup_zip_snd {A B} (xs : list A) (ys : list B) (i : nat) (x : A) (y : B) :
  zip xs ys !! i = Some (x, y) -> ys !! i = Some y.
Proof.
  revert ys i. induction xs as [|x' xs IH]; intros [|y' ys] [|i]; simpl;
    try discriminate; try congruence. apply IH.
Qed.

(** X5. On a match, every binding comes from a parameter segment of the
    pattern and the path segment at its position: the bound value is a
    segment of the path, so it is never empty and never holds a slash. *)
Theorem matchPath_params_are_segments (pattern path name value : string) :
  match_ (matchPath pattern path) = true ->
  params (matchPath pattern path) !! name = Some value ->
  (exists i, segments pattern !! i = Some (String ":" name) /\
             segments path !! i = Some value)
  /\ value <> "" /\ lacks "/" value = true.
Proof.
  intros Hmatch. rewrite (matchPath_params _ _ Hmatch). intros Hlook.
  apply lookup_delete_Some in Hlook as [_ Hlook].
  destruct (foldl_bindSegment_source _ _ _ _ Hlook) as [Hempty|[i Hi]];
    [now rewrite lookup_empty in Hempty|].
  pose proof (lookup_zip_fst _ _ _ _ _ Hi) as Hp.
  pose proof (lookup_zip_snd _ _ _ _ _ Hi) as Hq.
  split; [eauto|]. apply (segments_spec path).
  apply list_elem_of_In. eapply list_elem_of_lookup_2, Hq.
Qed.

Lemma matchPath_params_are_segments_witness :
  (exists i, segments "/users/:id" !! i = Some (String ":" "id") /\
             segments "/users/42" !! i = Some "42")
  /\ "42" <> "" /\ lacks "/" "42" = true.
Proof.
  apply (matchPath_params_are_segments "/users/:id" "/users/42" "id" "42");
    reflexivity.
Defined.

(** ** More on [joinPaths] *)

Lemma trimSlashes_slashes (n : nat) : JS.trimSlashes (JS.slashes n) = "".
Proof.
  unfold JS.trimSlashes.
  assert (Hlead : JS.dropLeadingSlashes (JS.slashes n) = "").
  { induction n as [|n IH]; [reflexivity|].
    cbn [JS.slashes JS.dropLeadingSlashes]. now rewrite Ascii.eqb_refl. }
  now rewrite Hlead.
Qed.

Lemma trimSlashes_joinPaths (paths : list string) :
  JS.trimSlashes (joinPaths paths)
  = JS.join "/" (JS.filterBoolean (map JS.trimSlashes paths)).
Proof.
  unfold joinPaths. change ("/" +:+ ?s) with (String "/" s).
  pose proof (tidy_parts paths) as Htidy.
  destruct (JS.filterBoolean (map JS.trimSlashes paths)) as [|x xs] eqn:Hparts;
    [reflexivity|].
  apply trimSlashes_tidy, tidy_join; [exact Htidy|discriminate].
Qed.

Lemma join_cons (x y : string) (ys : list string) :
  JS.join "/" (x :: y :: ys) = x +:+ String "/" (JS.join "/" (y :: ys)).
Proof. reflexivity. Qed.

Lemma join_flatten (xs ys zs : list string) :
  ys <> [] ->
  JS.join "/" (xs ++ JS.join "/" ys :: zs) = JS.join "/" (xs ++ ys ++ zs).
Proof.
  intros Hys.
  assert (Htail : JS.join "/" (JS.join "/" ys :: zs) = JS.join "/" (ys ++ zs)).
  { destruct zs as [|z zs]; [now rewrite app_nil_r|].
    rewrite join_cons. now rewrite join_app by (assumption || discriminate). }
  destruct xs as [|x xs]; [exact Htail|].
  rewrite !(join_app (x :: xs)); try discriminate.
  - now rewrite Htail.
  - destruct ys; [congruence|discriminate].
Qed.

(** X6. [joinPaths] is flat and normalising: a part that is itself a joined
    path counts as its own parts, a part made of slashes only (the empty
    text included) counts for nothing, and the result is one slash followed
    by a text with no slash at either end, so joining a joined path again
    changes nothing. *)
Theorem joinPaths_flat (xs ys zs : list string) :
  joinPaths (xs ++ joinPaths ys :: zs) = joinPaths (xs ++ ys ++ zs)
  /\ (forall n, joinPaths (xs ++ JS.slashes n :: zs) = joinPaths (xs ++ zs))
  /\ joinPaths [joinPaths ys] = joinPaths ys
  /\ exists rest,
       joinPaths ys = String "/" rest /\
       JS.dropLeadingSlashes rest = rest /\
       JS.dropTrailingSlashes rest = rest.
Proof.
  assert (Hflat : forall xs zs,
            joinPaths (xs ++ joinPaths ys :: zs) = joinPaths (xs ++ ys ++ zs)).
  { clear xs zs. intros xs zs. unfold joinPaths at 1 3. f_equal.
    rewrite !map_app, !filterBoolean_app. cbn [map].
    rewrite trimSlashes_joinPaths.
    pose proof (tidy_parts ys) as Htidy.
    destruct (JS.filterBoolean (map JS.trimSlashes ys)) as [|y ys'] eqn:Hys.
    - reflexivity.
    - destruct (tidy_join (y :: ys') Htidy ltac:(discriminate))
        as [(c & rest & Hc & _) _].
      cbn [JS.filterBoolean List.filter]. rewrite Hc at 1.
      cbn [JS.truthy String.eqb negb]. fold (JS.filterBoolean (map JS.trimSlashes zs)).
      apply join_flatten. discriminate. }
  split; [apply Hflat|]. split; [|split].
  - intros n. unfold joinPaths. f_equal.
    rewrite !map_app, !filterBoolean_app. cbn [map].
    now rewrite trimSlashes_slashes.
  - specialize (Hflat [] []). cbn [app] in Hflat. now rewrite app_nil_r in Hflat.
  - unfold joinPaths. change ("/" +:+ ?s) with (String "/" s).
    eexists. split; [reflexivity|].
    pose proof (tidy_parts ys) as Htidy.
    destruct (JS.filterBoolean (map JS.trimSlashes ys)) as [|y ys'] eqn:Hys;
      [now split|].
    destruct (tidy_join (y :: ys') Htidy ltac:(discriminate))
      as [(c & rest & Hc & Hslash) Htail].
    split; [|exact Htail]. rewrite Hc. cbn [JS.dropLeadingSlashes].
    now rewrite Hslash.
Qed.

(** ** More on the query string *)

Lemma bindPairs_app (l1 l2 : list string) (m : gmap string string) :
  bindPairs (l1 ++ l2) m = bindPairs l1 m ≫= bindPairs l2.
Proof.
  revert m. induction l1 as [|p l1 IH]; intros m; [reflexivity|].
  cbn [app bindPairs].
  destruct (JS.truthy (pairKey p)); [|apply IH].
  destruct (JS.decodeURIComponent (pairKey p)) as [k|]; [|reflexivity].
  destruct (JS.decodeURIComponent (pairValue p)) as [v|]; [|reflexivity].
  cbn [mbind option_bind]. apply IH.
Qed.

Lemma bindPairs_onto (l : list string) (m : gmap string string) :
  bindPairs l m = (fun m' => m' ∪ m) <$> bindPairs l ∅.
Proof.
  revert m. induction l as [|p l IH]; intros m; cbn [bindPairs].
  - cbn. now rewrite (left_id_L ∅ (∪)).
  - destruct (JS.truthy (pairKey p)); [|apply IH].
    destruct (JS.decodeURIComponent (pairKey p)) as [k|]; [|reflexivity].
    destruct (JS.decodeURIComponent (pairValue p)) as [v|]; [|reflexivity].
    cbn [mbind option_bind]. rewrite (IH (<[k:=v]> m)), (IH (<[k:=v]> ∅)).
    destruct (bindPairs l ∅) as [m'|]; [|reflexivity]. cbn. f_equal.
    rewrite insert_empty, (insert_union_singleton_l m).
    now rewrite (assoc_L (∪)).
Qed.

(** X7. Parsing two query strings joined by an ampersand gives the
    bindings of the first overridden by those of the second: a key that
    occurs again later keeps its last value.  If either part fails to
    decode, so does the whole. *)
Theorem parseQueryString_append (q1 q2 : string) (m1 m2 : gmap string string) :
  parseQueryString q1 = Some m1 ->
  parseQueryString q2 = Some m2 ->
  parseQueryString (q1 +:+ "&" +:+ q2) = Some (m2 ∪ m1)
  /\ (forall k, (m2 ∪ m1) !! k = match m2 !! k with
                                 | Some v => Some v
                                 | None => m1 !! k
                                 end)
  /\ (forall q, parseQueryString q = None ->
                parseQueryString (q +:+ "&" +:+ q2) = None /\
                parseQueryString (q1 +:+ "&" +:+ q) = None).
Proof.
  intros H1 H2. rewrite parseQueryString_bindPairs in H1, H2.
  apply fmap_Some in H1 as (b1 & H1 & ->).
  apply fmap_Some in H2 as (b2 & H2 & ->).
  assert (Hsplit : forall a b,
            parseQueryString (a +:+ "&" +:+ b)
            = delete "__proto__"
                <$> (bindPairs (JS.split "&" a) ∅ ≫= bindPairs (JS.split "&" b))).
  { intros a b. rewrite parseQueryString_bindPairs.
    change ("&" +:+ b) with (String "&" b).
    now rewrite split_app_sep, bindPairs_app. }
  split; [|split].
  - rewrite Hsplit, H1. cbn [mbind option_bind].
    rewrite bindPairs_onto, H2. cbn. now rewrite delete_union.
  - intros k. rewrite lookup_union.
    destruct (delete "__proto__" b2 !! k), (delete "__proto__" b1 !! k);
      reflexivity.
  - intros q Hq. rewrite parseQueryString_bindPairs in Hq.
    apply fmap_None in Hq. rewrite !Hsplit. split.
    + now rewrite Hq.
    + rewrite H1. cbn [mbind option_bind]. now rewrite bindPairs_onto, Hq.
Qed.

Lemma parseQueryString_append_witness :
  parseQueryString ("a=1&b=2" +:+ "&" +:+ "a=3")
  = Some ({[ "a" := "3" ]} ∪ (<["b" := "2"]> {[ "a" := "1" ]})).
Proof.
  apply (parseQueryString_append "a=1&b=2" "a=3"); reflexivity.
Defined.

Lemma decodeURIComponent_plain (s : string) :
  lacks "%" s = true -> JS.decodeURIComponent s = Some s.
Proof.
  unfold JS.decodeURIComponent. induction s as [|c s IH]; [reflexivity|].
  cbn [lacks]. rewrite andb_true_iff, negb_true_iff. intros [Hc Hs].
  cbn [JS.decodeFrom JS.scan0 JS.phase JS.owed]. rewrite Hc.
  fold JS.scan0. now rewrite (IH Hs).
Qed.

Lemma lacks_split (c d : ascii) (s piece : string) :
  lacks c s = true -> In piece (JS.split d s) -> lacks c piece = true.
Proof.
  revert piece. induction s as [|a s IH]; intros piece; cbn [JS.split lacks].
  - intros _ [<-|[]]. reflexivity.
  - rewrite andb_true_iff. intros [Ha Hs].
    destruct (Ascii.eqb a d).
    + intros [<-|Hin]; [reflexivity|auto].
    + pose proof (split_not_nil d s) as Hne.
      destruct (JS.split d s) as [|first others]; [contradiction|].
      intros [<-|Hin].
      * cbn [lacks]. rewrite Ha. apply IH; [exact Hs|now left].
      * apply IH; [exact Hs|now right].
Qed.

Lemma lacks_beforeFirst (c d : ascii) (s : string) :
  lacks c s = true -> lacks c (beforeFirst d s) = true.
Proof.
  induction s as [|a s IH]; [reflexivity|]. cbn [lacks beforeFirst].
  rewrite andb_true_iff. intros [Ha Hs].
  destruct (Ascii.eqb a d); [reflexivity|]. cbn [lacks]. now rewrite Ha, IH.
Qed.

Lemma lacks_afterFirst (c d : ascii) (s rest : string) :
  lacks c s = true -> afterFirst d s = Some rest -> lacks c rest = true.
Proof.
  induction s as [|a s IH]; [discriminate|]. cbn [lacks afterFirst].
  rewrite andb_true_iff. intros [Ha Hs].
  destruct (Ascii.eqb a d); [now intros [= <-]|auto].
Qed.

Lemma foldl_ext_plain (pairs : list string) (m : gmap string string) :
  foldl (fun query p =>
           if JS.truthy (pairKey p)
           then <[pairKey p := pairValue p]> query else query) m pairs
  = foldl (fun query p =>
             match pairKey p with
             | EmptyString => query
             | key => <[key := pairValue p]> query
             end) m pairs.
Proof.
  revert m. induction pairs as [|p pairs IH]; intros m; [reflexivity|].
  cbn [foldl]. rewrite <- IH. now destruct (pairKey p).
Qed.

Lemma bindPairs_plain (pairs : list string) (m : gmap string string) :
  (forall p, In p pairs -> lacks "%" p = true) ->
  bindPairs pairs m
  = Some (foldl (fun query p =>
                   if JS.truthy (pairKey p)
                   then <[pairKey p := pairValue p]> query else query)
            m pairs).
Proof.
  revert m. induction pairs as [|p pairs IH]; intros m Hplain; [reflexivity|].
  cbn [bindPairs foldl].
  assert (Hp : lacks "%" p = true) by (apply Hplain; now left).
  assert (Hrest : forall p', In p' pairs -> lacks "%" p' = true)
    by (intros p' Hin; apply Hplain; now right).
  destruct (JS.truthy (pairKey p)); [|now apply IH].
  rewrite (decodeURIComponent_plain (pairKey p))
    by (apply lacks_beforeFirst, Hp).
  rewrite (decodeURIComponent_plain (pairValue p)).
  - cbn [mbind option_bind]. now apply IH.
  - unfold pairValue. destruct (afterFirst "=" p) as [rest|] eqn:Hafter;
      [|reflexivity].
    apply lacks_beforeFirst. eapply lacks_afterFirst; eassumption.
Qed.

(** X8. A query string without a percent sign never makes
    [parseQueryString] throw, and its keys and values are taken as they
    are written: the result is the pairs with a non-empty key, each binding
    what precedes its first equals sign to what follows it up to the next
    one, later pairs over earlier ones, and without the key [__proto__],
    which is never bound. *)
Theorem parseQueryString_plain (queryString : string) :
  lacks "%" queryString = true ->
  parseQueryString queryString
  = Some (delete "__proto__"
            (foldl (fun query p =>
                      match pairKey p with
                      | EmptyString => query
                      | key => <[key := pairValue p]> query
                      end)
               ∅ (JS.split "&" queryString)))
  /\ (forall query, parseQueryString queryString = Some query ->
                    query !! "__proto__" = None).
Proof.
  intros Hplain. rewrite parseQueryString_bindPairs.
  rewrite (bindPairs_plain (JS.split "&" queryString) ∅)
    by (intros p Hin; eapply lacks_split; eassumption).
  cbn [fmap option_fmap option_map]. split.
  - do 2 f_equal. apply foldl_ext_plain.
  - intros query [= <-]. apply lookup_delete_eq.
Qed.

Lemma parseQueryString_plain_witness :
  parseQueryString "q=react&__proto__=x&debug"
  = Some (<["debug" := ""]> {[ "q" := "react" ]}).
Proof.
  destruct (parseQueryString_plain "q=react&__proto__=x&debug" eq_refl)
    as [Hparse _].
  rewrite Hparse. reflexivity.
Defined.

(** ** More on body decoding *)

Lemma parseBodyFrom_pending (JSON_parse : string -> option JsValue)
    (events : list StreamEvent) (buffered : list string) :
  parseBodyFrom JSON_parse events buffered = Pending <->
  forall ev, In ev events -> exists chunk, ev = DataEvent chunk.
Proof.
  revert buffered. induction events as [|[chunk| |] events IH]; intros buffered;
    cbn [parseBodyFrom].
  - split; [intros _ ev []|reflexivity].
  - rewrite IH. split.
    + intros Hall ev [<-|Hin]; eauto.
    + intros Hall ev Hin. apply Hall. now right.
  - split.
    + destruct (negb _); [discriminate|]. destruct (JSON_parse _); discriminate.
    + intros Hall. destruct (Hall EndEvent) as [chunk Hc]; [now left|discriminate].
  - split; [discriminate|].
    intros Hall. destruct (Hall ErrorEvent) as [chunk Hc]; [now left|discriminate].
Qed.

(** X9. The promise of [parseBody] stays pending exactly when the stream
    delivers data only, with neither an end nor an error: any end or error
    event settles it, and it never rejects. *)
Theorem parseBody_settles_iff (JSON_parse : string -> option JsValue)
    (req : IncomingMessage) :
  (parseBody JSON_parse req = Pending <->
   forall ev, In ev (req_body req) -> exists chunk, ev = DataEvent chunk)
  /\ (In EndEvent (req_body req) \/ In ErrorEvent (req_body req) ->
      exists v, parseBody JSON_parse req = Done v).
Proof.
  unfold parseBody. split; [apply parseBodyFrom_pending|].
  intros Hsettle.
  destruct (parseBodyFrom JSON_parse (req_body req) []) as [v|e| | |] eqn:Hbody.
  - eauto.
  - now destruct (parseBodyFrom_not_Failed JSON_parse (req_body req) [] e).
  - pose proof (proj1 (parseBodyFrom_pending _ _ _) Hbody) as Hdata.
    destruct Hsettle as [Hin|Hin]; destruct (Hdata _ Hin); discriminate.
  - now destruct (parseBodyFrom_fuel JSON_parse (req_body req) []).
  - now destruct (parseBodyFrom_not_Detached JSON_parse (req_body req) []).
Qed.

(** ** The order of calls in the chain *)

Lemma callsFromTo_app (i j k : nat) :
  i <= j -> j <= k -> callsFromTo i j ++ callsFromTo j k = callsFromTo i k.
Proof.
  intros Hij Hjk. unfold callsFromTo. rewrite <- map_app. f_equal.
  replace (k - i) with ((j - i) + (k - j)) by lia.
  rewrite seq_app. do 2 f_equal. lia.
Qed.

Lemma ChainStep_refl (bound : nat) (st : ChainState) : ChainStep bound st st.
Proof.
  unfold ChainStep, callsFromTo. rewrite Nat.sub_diag. cbn.
  rewrite app_nil_r. auto.
Qed.

Lemma ChainStep_trans (bound : nat) (a b c : ChainState) :
  ChainStep bound a b -> ChainStep bound b c -> ChainStep bound a c.
Proof.
  intros (Hab & Hbound1 & Hcalls1) (Hbc & Hbound2 & Hcalls2).
  split; [lia|]. split; [auto|].
  rewrite Hcalls2, Hcalls1, <- app_assoc. f_equal. now apply callsFromTo_app.
Qed.

Lemma ChainStep_from (bound : nat) (a a' c : ChainState) :
  index a' = index a -> calls (world a') = calls (world a) ->
  ChainStep bound a' c -> ChainStep bound a c.
Proof. intros Hi Hc. unfold ChainStep. now rewrite Hi, Hc. Qed.

Lemma exec_ChainStep {R : Type}
    (nextFn : unit -> ChainState -> Outcome unit * ChainState) (bound : nat) :
  (forall st, ChainStep bound st (snd (nextFn tt st))) ->
  forall (p : Prog unit R) st, ChainStep bound st (snd (exec nextFn p st)).
Proof.
  intros Hnext. induction p as [r|how e| |code k IH|name value k IH|d k IH|d k IH
                                |k IH|label k IH|[] k IHk onError IHe|[] k IH];
    intros st; cbn [exec snd]; try apply ChainStep_refl;
    try (eapply ChainStep_from; [| |apply IH]; reflexivity).
  - attempt; [|apply ChainStep_refl].
    eapply ChainStep_from; [| |apply IH]; reflexivity.
  - attempt; [|apply ChainStep_refl].
    eapply ChainStep_from; [| |apply IH]; reflexivity.
  - attempt; [|apply ChainStep_refl].
    eapply ChainStep_from; [| |apply IH]; reflexivity.
  - pose proof (Hnext st) as Hstep.
    destruct (nextFn tt st) as [[[]|e| | |] st']; cbn [snd] in *.
    + eapply ChainStep_trans; [exact Hstep|apply IHk].
    + eapply ChainStep_trans; [exact Hstep|apply IHe].
    + exact Hstep.
    + exact Hstep.
    + exact Hstep.
Qed.

Lemma next_ChainStep (ctx : RequestContext) (mws : list MiddlewareHandler)
    (fuel : nat) (st : ChainState) :
  ChainStep (length mws) st (snd (next ctx mws fuel tt st)).
Proof.
  revert st. induction fuel as [|fuel IH]; intros st; cbn [next].
  - destruct (index st <? length mws)%nat; [|apply ChainStep_refl].
    destruct (mws !! index st); apply ChainStep_refl.
  - destruct (Nat.ltb_spec (index st) (length mws)) as [Hlt|Hge];
      [|apply ChainStep_refl].
    destruct (mws !! index st) as [middleware|]; [|apply ChainStep_refl].
    eapply ChainStep_trans; [|apply (exec_ChainStep _ _ IH)].
    split; [cbn; lia|]. split; [cbn; lia|]. cbn [index world calls recordCall].
    unfold callsFromTo. now replace (S (index st) - index st) with 1 by lia.
Qed.

Lemma catchBlock_calls (JSON_stringify : JsValue -> string) (error : Thrown)
    (w : World) :
  calls (snd (catchBlock JSON_stringify error w)) = calls w.
Proof.
  unfold catchBlock. destruct (negb _); [|reflexivity].
  now rewrite sendJson_calls.
Qed.

Lemma tryCatch_calls (JSON_stringify : JsValue -> string) (matched : MatchedRoute)
    (ctx : RequestContext) (w : World) :
  calls (snd (tryCatch JSON_stringify matched ctx w))
  = calls (snd (tryBlock JSON_stringify matched ctx w)).
Proof.
  unfold tryCatch.
  destruct (tryBlock _ _ _ _) as [[[]|e| | |] w']; try reflexivity.
  apply catchBlock_calls.
Qed.

Lemma tryBlock_calls (JSON_stringify : JsValue -> string) (matched : MatchedRoute)
    (ctx : RequestContext) (w : World) :
  exists k (called : bool),
    k <= length (mr_middlewares matched) /\
    calls (snd (tryBlock JSON_stringify matched ctx w))
    = calls w ++ callsFromTo 0 k ++ (if called then [CalledHandler] else []).
Proof.
  pose proof (next_ChainStep ctx (mr_middlewares matched)
                (length (mr_middlewares matched)) (mkChain 0 w))
    as (_ & Hbound & Hcalls).
  cbn [index world] in Hbound, Hcalls.
  destruct (next ctx (mr_middlewares matched) (length (mr_middlewares matched)) tt
              (mkChain 0 w)) as [[[]|e| | |] st] eqn:Hchain; cbn [snd] in *.
  - exists (index st), true. split; [lia|].
    rewrite (tryBlock_calls_handler JSON_stringify matched ctx w st Hchain).
    now rewrite Hcalls, <- app_assoc.
  - exists (index st), false. split; [lia|]. unfold tryBlock. rewrite Hchain.
    cbn [snd]. now rewrite Hcalls, app_nil_r.
  - exists (index st), false. split; [lia|]. unfold tryBlock. rewrite Hchain.
    cbn [snd]. now rewrite Hcalls, app_nil_r.
  - exists (index st), false. split; [lia|]. unfold tryBlock. rewrite Hchain.
    cbn [snd]. now rewrite Hcalls, app_nil_r.
  - exists (index st), false. split; [lia|]. unfold tryBlock. rewrite Hchain.
    cbn [snd]. now rewrite Hcalls, app_nil_r.
Qed.

(** X10. As long as no middleware leaves a call of [next] un-awaited,
    whatever else the middlewares and the handler do, also when a
    middleware awaits [next] several times or faults, one request calls
    them in this order: the middlewares at the positions 0, 1, ... up to
    some position of the resolved list, each once and none skipped, and
    then the handler at most once; on a miss, or when the target or the
    query is refused, nothing is called. *)
Theorem handleRequest_call_order
    (URL_parse : string -> string -> option URL)
    (JSON_stringify : JsValue -> string) (JSON_parse : string -> option JsValue)
    (serverNode : ServerNode) (req : IncomingMessage) (w : World) :
  fst (handleRequest URL_parse JSON_stringify JSON_parse serverNode req w)
  <> Detached ->
  exists k (called : bool),
    calls (snd (handleRequest URL_parse JSON_stringify JSON_parse serverNode
                  req w))
    = calls w ++ map CalledMiddleware (seq 0 k)
      ++ (if called then [CalledHandler] else [])
    /\ match requestURL URL_parse req with
       | Some url =>
           match parseQueryString (JS.slice1 (search url)),
                 resolve serverNode req url with
           | Some _, Some matched => k <= length (mr_middlewares matched)
           | _, _ => k = 0 /\ called = false
           end
       | None => k = 0 /\ called = false
       end.
Proof.
  intros _.
  assert (Hnothing : forall w', calls w' = calls w ->
            calls w' = calls w ++ map CalledMiddleware (seq 0 0) ++ []).
  { intros w' ->. cbn. now rewrite app_nil_r. }
  unfold handleRequest.
  destruct (requestURL URL_parse req) as [url|]; cbv beta iota zeta;
    [|exists 0, false; split; [now apply Hnothing|auto]].
  destruct (parseQueryString _) as [query|];
    [|exists 0, false; split; [now apply Hnothing|auto]].
  destruct (resolve serverNode req url) as [matched|].
  - destruct (parseBody JSON_parse req) as [body|e| | |];
      try (exists 0, false; split; [now apply Hnothing|lia]).
    destruct (tryBlock_calls JSON_stringify matched
                (mkContext req (mr_params matched) query (pathname url)
                   (requestMethod req) body) w) as (k & called & Hk & Hcalls).
    exists k, called. split; [|exact Hk].
    unfold callsFromTo in Hcalls. rewrite Nat.sub_0_r in Hcalls.
    now rewrite tryCatch_calls.
  - exists 0, false. split; [|auto].
    apply Hnothing. now rewrite sendJson_calls.
Qed.

Lemma handleRequest_call_order_witness :
  exists k (called : bool),
    calls (snd (handleRequest Examples.parseTarget Examples.printJson
                  Examples.readKeyword Examples.guardedServer
                  (Examples.request "GET" "/protected") newWorld))
    = [] ++ map CalledMiddleware (seq 0 k)
      ++ (if called then [CalledHandler] else [])
    /\ k <= 2.
Proof.
  destruct (handleRequest_call_order Examples.parseTarget Examples.printJson
              Examples.readKeyword Examples.guardedServer
              (Examples.request "GET" "/protected") newWorld)
    as (k & called & Hcalls & Hk).
  - vm_compute. discriminate.
  - exists k, called. split; [exact Hcalls|exact Hk].
Defined.

(** ** Middlewares that pass on *)

Lemma res_write_valid (d : string) (r : ServerResponse) :
  validStatus (statusCode r) = true ->
  exists r', res_write d r = Fine r' /\ statusCode r' = statusCode r.
Proof.
  intros Hvalid. unfold res_write, sendHead.
  destruct (writableEnded r); [now exists r|].
  destruct (headersSent r); [eexists; split; reflexivity|].
  rewrite Hvalid. eexists; split; reflexivity.
Qed.

Lemma res_end_valid (d : option string) (r : ServerResponse) :
  validStatus (statusCode r) = true ->
  exists r', res_end d r = Fine r' /\ statusCode r' = statusCode r.
Proof.
  intros Hvalid. unfold res_end, sendHead.
  destruct (writableEnded r); [now exists r|].
  destruct (headersSent r); [eexists; split; reflexivity|].
  rewrite Hvalid. eexists; split; reflexivity.
Qed.

Lemma res_setHeader_valid (name value : string) (r : ServerResponse) :
  headersSent r = false ->
  JS.isHttpToken name = true -> JS.headerCharsValid value = true ->
  exists r', res_setHeader name value r = Fine r' /\ headersSent r' = false.
Proof.
  intros Hsent Hname Hvalue. unfold res_setHeader.
  rewrite Hsent, Hname, Hvalue. cbn [negb]. eexists. split; reflexivity.
Qed.

Lemma exec_quiet {K R : Type} (nextFn : K -> ChainState -> Outcome unit * ChainState)
    (body : bool) (p : Prog K R) :
  Quiet body p ->
  forall st, Calm body (res (world st)) ->
    exists r w', exec nextFn p st = (Done r, mkChain (index st) w') /\
                 Calm body (res w').
Proof.
  induction 1 as [r|code k Hcode _ IH|name value k Hbody Hname Hvalue _ IH
                  |d k Hbody _ IH|d k Hbody _ IH|k _ IH|label k _ IH];
    intros st Hst; cbn [exec].
  - exists r, (world st). split; [now destruct st|exact Hst].
  - apply (IH (onWorld _ st)). destruct body; [now apply Hcode|exact Hst].
  - subst body.
    destruct (res_setHeader_valid name value _ Hst Hname Hvalue)
      as (r' & -> & Hsent).
    apply (IH (onWorld _ st)). exact Hsent.
  - subst body. destruct (res_write_valid d _ Hst) as (r' & -> & Hstatus).
    apply (IH (onWorld _ st)). cbn. unfold Calm in *. now rewrite Hstatus.
  - subst body. destruct (res_end_valid d _ Hst) as (r' & -> & Hstatus).
    apply (IH (onWorld _ st)). cbn. unfold Calm in *. now rewrite Hstatus.
  - apply IH. exact Hst.
  - apply (IH (onWorld _ st)). exact Hst.
Qed.

Lemma exec_passes (nextFn : unit -> ChainState -> Outcome unit * ChainState)
    (body : bool) (from target : nat) (p : Prog unit unit) :
  (forall st, index st = from -> Calm body (res (world st)) ->
     exists w', nextFn tt st = (Done tt, mkChain target w') /\
                Calm body (res w')) ->
  PassesOn body p ->
  forall st, index st = from -> Calm body (res (world st)) ->
    exists w', exec nextFn p st = (Done tt, mkChain target w') /\
               Calm body (res w').
Proof.
  intros Hnext. induction 1 as [k Hk|code k Hcode _ IH
                                |name value k Hbody Hname Hvalue _ IH
                                |d k Hbody _ IH|k _ IH|label k _ IH];
    intros st Hst Hcalm; unfold awaitNext; cbn [exec].
  - destruct (Hnext st Hst Hcalm) as (w1 & -> & Hcalm1).
    destruct (exec_quiet nextFn body k Hk (mkChain target w1) Hcalm1)
      as ([] & w' & -> & Hcalm').
    now exists w'.
  - apply (IH (onWorld _ st) Hst). destruct body; [now apply Hcode|exact Hcalm].
  - subst body.
    destruct (res_setHeader_valid name value _ Hcalm Hname Hvalue)
      as (r' & -> & Hsent).
    apply (IH (onWorld _ st) Hst). exact Hsent.
  - subst body. destruct (res_write_valid d _ Hcalm) as (r' & -> & Hstatus).
    apply (IH (onWorld _ st) Hst). cbn. unfold Calm in *. now rewrite Hstatus.
  - apply IH; assumption.
  - apply (IH (onWorld _ st) Hst). exact Hcalm.
Qed.

Lemma next_passes (ctx : RequestContext) (mws : list MiddlewareHandler)
    (body : bool) :
  (forall mw, In mw mws -> PassesOn body (mw ctx)) ->
  forall fuel st,
    index st <= length mws -> length mws <= fuel + index st ->
    Calm body (res (world st)) ->
    exists w', next ctx mws fuel tt st = (Done tt, mkChain (length mws) w') /\
               Calm body (res w').
Proof.
  intros Hall. induction fuel as [|fuel IH]; intros [i w] Hle Hfuel Hcalm;
    cbn [index world] in *; cbn [next index world].
  - destruct (Nat.ltb_spec i (length mws)); [lia|].
    exists w. replace (length mws) with i by lia. now split.
  - destruct (Nat.ltb_spec i (length mws)) as [Hlt|Hge];
      [|exists w; replace (length mws) with i by lia; now split].
    destruct (mws !! i) as [middleware|] eqn:Hmw;
      [|apply lookup_ge_None in Hmw; exfalso;
        exact (Nat.lt_irrefl _ (Nat.lt_le_trans _ _ _ Hlt Hmw))].
    apply (exec_passes _ body (S i)).
    + intros st Hst Hcalm'. apply IH; [rewrite Hst; lia..|exact Hcalm'].
    + apply Hall, list_elem_of_In. eapply list_elem_of_lookup_2, Hmw.
    + reflexivity.
    + exact Hcalm.
Qed.

(** Why the two kinds are kept apart: a middleware that writes and then
    sets a header does not pass on.  Its [setHeader] throws, and neither
    the rest of the chain nor the handler is called. *)
Lemma write_then_header_stops_chain :
  calls (snd (tryBlock Examples.printJson
                (mkMatched (mkMethod GET Examples.okHandler None) ∅
                   [fun _ => Write "early"
                               (SetHeader "X-Trace" "1" (awaitNext (Return tt)));
                    Examples.passThrough "audit"])
                Examples.guardedContext newWorld))
  = [CalledMiddleware 0].
Proof. reflexivity. Qed.

(** X11. When every middleware of the resolved route awaits [next] once,
    acting on the response before and after (all of them setting status
    codes and well-formed headers only, on a response nothing of which has
    been sent, as a logging or CORS middleware does; or all of them setting
    status codes within range, writing and ending, and setting no header,
    on a response whose status code is within range), a request calls
    every one of them, in the order of the list, and then the handler. *)
Theorem handleRequest_runs_whole_chain
    (URL_parse : string -> string -> option URL)
    (JSON_stringify : JsValue -> string) (JSON_parse : string -> option JsValue)
    (serverNode : ServerNode) (req : IncomingMessage) (w : World) (url : URL)
    (query : gmap string string) (matched : MatchedRoute) (body : JsValue)
    (writes : bool) :
  requestURL URL_parse req = Some url ->
  parseQueryString (JS.slice1 (search url)) = Some query ->
  resolve serverNode req url = Some matched ->
  parseBody JSON_parse req = Done body ->
  (if writes then validStatus (statusCode (res w)) = true
   else headersSent (res w) = false) ->
  (forall mw, In mw (mr_middlewares matched) ->
     PassesOn writes
       (mw (mkContext req (mr_params matched) query (pathname url)
              (requestMethod req) body))) ->
  calls (snd (handleRequest URL_parse JSON_stringify JSON_parse serverNode req w))
  = calls w
    ++ map CalledMiddleware (seq 0 (length (mr_middlewares matched)))
    ++ [CalledHandler].
Proof.
  intros Hurl Hquery Hmatched Hbody Hcalm Hpass.
  rewrite (handleRequest_tryCatch URL_parse JSON_stringify JSON_parse serverNode
             req w url query matched body Hurl Hquery Hmatched Hbody).
  set (ctx := mkContext req (mr_params matched) query (pathname url)
                (requestMethod req) body) in *.
  destruct (next_passes ctx (mr_middlewares matched) writes Hpass
              (length (mr_middlewares matched)) (mkChain 0 w))
    as (w1 & Hchain & _); [cbn; lia|cbn; lia|exact Hcalm|].
  pose proof (next_ChainStep ctx (mr_middlewares matched)
                (length (mr_middlewares matched)) (mkChain 0 w))
    as (_ & _ & Hcalls).
  rewrite Hchain in Hcalls. cbn [snd index world] in Hcalls.
  unfold callsFromTo in Hcalls. rewrite Nat.sub_0_r in Hcalls.
  pose proof (tryBlock_calls_handler JSON_stringify matched ctx w _ Hchain)
    as Hhandler.
  cbn [world] in Hhandler. rewrite Hcalls, <- app_assoc in Hhandler.
  now rewrite tryCatch_calls.
Qed.

Lemma handleRequest_runs_whole_chain_witness :
  calls (snd (handleRequest Examples.parseTarget Examples.printJson
                Examples.readKeyword Examples.orderedServer
                (Examples.request "GET" "/test") newWorld))
  = [] ++ map CalledMiddleware (seq 0 2) ++ [CalledHandler].
Proof.
  apply (handleRequest_runs_whole_chain Examples.parseTarget Examples.printJson
           Examples.readKeyword Examples.orderedServer
           (Examples.request "GET" "/test") newWorld (mkURL "/test" "") ∅
           (mkMatched (mkMethod GET Examples.okHandler None) ∅
              [Examples.passThrough "mw1"; Examples.passThrough "mw2"])
           JUndefined false eq_refl eq_refl eq_refl eq_refl eq_refl).
  intros mw [<-|[<-|[]]]; apply passes_emit, passes_await, quiet_return.
Defined.

(** ** What the dispatcher lets escape, and what the listener makes of it *)

Section Escapes.

Variable URL_parse : string -> string -> option URL.
Variable JSON_stringify : JsValue -> string.
Variable JSON_parse : string -> option JsValue.











End Escapes.



(** ** Slashes in prefixes do not matter to resolution *)

Section PrefixSlashes.

Variables (method path : string).

Lemma tryMethod_same_segments (node : ServerNode) (b b' : string)
    (mws : list MiddlewareHandler) :
  segments b = segments b' ->
  tryMethod node method path b mws = tryMethod node method path b' mws.
Proof.
  intros Hseg. destruct node as [| |m|]; try reflexivity. cbn [tryMethod].
  destruct (String.eqb _ method); [|reflexivity].
  rewrite (matchPath_same_segments (checkPath b (mn_path m))
             (checkPath b' (mn_path m)) path path); [reflexivity| |reflexivity].
  now rewrite !segments_checkPath, Hseg.
Qed.

Lemma findDirect_same_segments (children : list ServerNode) (b b' : string)
    (mws : list MiddlewareHandler) :
  segments b = segments b' ->
  findDirect children method path b mws = findDirect children method path b' mws.
Proof.
  intros Hseg. induction children as [|c cs IH]; [reflexivity|].
  cbn [findDirect]. now rewrite (tryMethod_same_segments c b b' mws Hseg), IH.
Qed.

Lemma findRoute_lift_segments (nodes : list ServerNode) :
  Forall (fun n => forall b b' mws, segments b = segments b' ->
            findRouteNode n method path b mws = findRouteNode n method path b' mws)
    nodes ->
  forall b b' mws, segments b = segments b' ->
    findRoute nodes method path b mws = findRoute nodes method path b' mws.
Proof.
  induction 1 as [|n nodes Hn _ IH]; intros b b' mws Hseg; [reflexivity|].
  cbn [findRoute]. now rewrite (Hn b b' mws Hseg), (IH b b' mws Hseg).
Qed.

Lemma joinPaths_same_segments (b b' rpath rpath' : string) :
  segments b = segments b' -> segments rpath = segments rpath' ->
  segments (joinPaths [b; rpath]) = segments (joinPaths [b'; rpath']).
Proof. intros Hb Hr. rewrite !segments_joinPaths. cbn. now rewrite Hb, Hr. Qed.

Lemma findRouteNode_same_segments (n : ServerNode) :
  forall b b' mws, segments b = segments b' ->
    findRouteNode n method path b mws = findRouteNode n method path b' mws.
Proof.
  induction n as [port cs ms IH|rpath cs ms IH|m|h] using ServerNode_nested_ind;
    intros b b' mws Hseg; try reflexivity.
  - rewrite !findRouteNode_route.
    pose proof (joinPaths_same_segments b b' rpath rpath Hseg eq_refl) as Hfull.
    rewrite (findDirect_same_segments cs _ _ (mws ++ ms) Hfull).
    now rewrite (findRoute_lift_segments cs IH _ _ (mws ++ ms) Hfull).
  - apply tryMethod_same_segments, Hseg.
Qed.

End PrefixSlashes.

(** X14. Resolution sees prefixes through their segments only: a base
    path or a group prefix written with other leading, trailing or doubled
    slashes (or without any) resolves every request to the same result. *)
Theorem findRoute_prefix_slashes
    (before after children : list ServerNode) (rpath rpath' base base' : string)
    (rmws mws : list MiddlewareHandler) (method path : string) :
  segments base = segments base' ->
  segments rpath = segments rpath' ->
  findRoute (before ++ RouteN rpath children rmws :: after) method path base mws
  = findRoute (before ++ RouteN rpath' children rmws :: after) method path base' mws.
Proof.
  intros Hbase Hrpath.
  assert (Hlist : forall nodes,
            findRoute nodes method path base mws
            = findRoute nodes method path base' mws).
  { intros nodes. apply findRoute_lift_segments; [|exact Hbase].
    apply Forall_forall. intros n _. apply findRouteNode_same_segments. }
  rewrite !findRoute_app, Hlist. cbn [findRoute].
  rewrite (Hlist after), !findRouteNode_route.
  pose proof (joinPaths_same_segments base base' rpath rpath' Hbase Hrpath) as Hfull.
  rewrite (findDirect_same_segments method path children _ _ (mws ++ rmws) Hfull).
  assert (Hnested : findRoute children method path (joinPaths [base; rpath])
                      (mws ++ rmws)
                    = findRoute children method path (joinPaths [base'; rpath'])
                        (mws ++ rmws)).
  { apply findRoute_lift_segments; [|exact Hfull].
    apply Forall_forall. intros n _. apply findRouteNode_same_segments. }
  now rewrite Hnested.
Qed.

Lemma findRoute_prefix_slashes_witness :
  findRoute ([] ++ RouteN "/api" [Examples.get Examples.directHealth (Some "/health")]
                     [] :: [])
    "GET" "/api/health" "" []
  = findRoute ([] ++ RouteN "api//" [Examples.get Examples.directHealth (Some "/health")]
                       [] :: [])
      "GET" "/api/health" "/" [].
Proof.
  apply (findRoute_prefix_slashes [] []
           [Examples.get Examples.directHealth (Some "/health")]
           "/api" "api//" "" "/" [] [] "GET" "/api/health"); reflexivity.
Defined.

(** ** Building a node's lists *)

Lemma middlewareHandlers_app (xs ys : list ServerNode) :
  middlewareHandlers (xs ++ ys) = middlewareHandlers xs ++ middlewareHandlers ys.
Proof. unfold middlewareHandlers. now rewrite map_app, concat_app. Qed.

Lemma otherNodes_app (xs ys : list ServerNode) :
  otherNodes (xs ++ ys) = otherNodes xs ++ otherNodes ys.
Proof. apply List.filter_app. Qed.

Lemma appendChildren_route (rpath : string) (kids children : list ServerNode)
    (middlewares : list MiddlewareHandler) :
  appendChildren (RouteN rpath children middlewares) kids
  = Some (RouteN rpath (children ++ otherNodes kids)
            (middlewares ++ middlewareHandlers kids)).
Proof.
  revert children middlewares.
  induction kids as [|kid kids IH]; intros children middlewares.
  - cbn. now rewrite !app_nil_r.
  - cbn [appendChildren appendChild].
    destruct kid as [port cs ms|rp cs ms|m|h]; rewrite IH;
      change (?k :: kids) with ([k] ++ kids);
      rewrite otherNodes_app, middlewareHandlers_app; cbn;
      now rewrite <- ?app_assoc.
Qed.

Lemma appendChildren_server (port : nat) (kids children : list ServerNode)
    (middlewares : list MiddlewareHandler) :
  appendChildren (ServerN port children middlewares) kids
  = Some (ServerN port (children ++ otherNodes kids)
            (middlewares ++ middlewareHandlers kids)).
Proof.
  revert children middlewares.
  induction kids as [|kid kids IH]; intros children middlewares.
  - cbn. now rewrite !app_nil_r.
  - cbn [appendChildren appendChild].
    destruct kid as [port' cs ms|rp cs ms|m|h]; rewrite IH;
      change (?k :: kids) with ([k] ++ kids);
      rewrite otherNodes_app, middlewareHandlers_app; cbn;
      now rewrite <- ?app_assoc.
Qed.

(** X15. Appending children to a server or a route sorts them into its two
    lists and keeps each list in the order of arrival: the middleware
    handlers go to [middlewares], everything else to [children], and no
    middleware node ever sits among the children.  So where a middleware is
    declared among its siblings does not matter: declared after an endpoint
    of the same route, it is accumulated for that endpoint all the same. *)
Theorem appendChildren_sorts (kids children : list ServerNode)
    (middlewares : list MiddlewareHandler) :
  (forall rpath,
     appendChildren (RouteN rpath children middlewares) kids
     = Some (RouteN rpath (children ++ otherNodes kids)
               (middlewares ++ middlewareHandlers kids)))
  /\ (forall port,
        appendChildren (ServerN port children middlewares) kids
        = Some (ServerN port (children ++ otherNodes kids)
                  (middlewares ++ middlewareHandlers kids)))
  /\ (forall n, In n (otherNodes kids) -> isMiddlewareNode n = false)
  /\ (forall rpath endpoint mw route method path base mws r,
        appendChildren (RouteN rpath [] []) [MethodN endpoint; MiddlewareN mw]
        = Some route ->
        findRouteNode route method path base mws = Some r ->
        appendChildren (RouteN rpath [] []) [MiddlewareN mw; MethodN endpoint]
        = Some route /\
        mr_middlewares r = mws ++ [mw]).
Proof.
  split; [intros; apply appendChildren_route|].
  split; [intros; apply appendChildren_server|]. split.
  - intros n Hin. unfold otherNodes in Hin. apply filter_In in Hin as [_ Hn].
    now apply negb_true_iff in Hn.
  - intros rpath endpoint mw route method path base mws r Hroute Hfind.
    cbn in Hroute. injection Hroute as <-. split; [reflexivity|].
    destruct (findRouteNode_sound method path _ _ _ _ Hfind)
      as (groups & Hreach & Hmw & _).
    inversion Hreach as [? ? Hin|? ? ? ? ? ? Hin Hdown]; subst.
    + destruct Hin as [Hin|[]]. discriminate.
    + destruct Hin as [Hin|[]]. injection Hin as <- <- <-.
      inversion Hdown as [? ? Hin'|? ? ? ? ? ? Hin' _]; subst.
      * rewrite Hmw. cbn. reflexivity.
      * destruct Hin' as [Hin'|[]]. discriminate.
Qed.

(** ** What becomes of the handler's result *)

Section Result.

Variable JSON_stringify : JsValue -> string.




End Result.


